(** * Three-vessel water pouring puzzle: state model and breadth-first solver

    A shallow embedding of [src/water.cpp] and [src/utils.h]:
    - [water] is [uint16_t]; levels are integers with the 16-bit wrap-around
      written out ([wrap16]);
    - [VesselsState] is [std::array<water, 3>]; [at_] is the bounds-checked
      [std::array::at], whose out-of-range exception is the [None] result;
    - [m_visited] (a [std::unordered_set]) is a finite set, [m_history]
      (a [std::vector]) a list read by index;
    - the [while] loop of [solve_water] takes fuel, one unit per executed
      round; running out of it is an outcome of its own;
    - a [size_t] position in the history is a natural number; where the
      program converts one to [int] (the predecessor index stored with a
      recorded state, the index [show] starts from) the model reduces it
      modulo 2^32 into the range of [int] ([to_int]);
    - the [int] step counter counts the rounds; it stays below the number of
      history entries ([solve_water_counters]). *)

From stdpp Require Import base numbers option list gmap sets.

Local Open Scope Z_scope.

(** ** The measurement unit *)

Module Water.

(** [using water = uint16_t] *)
Definition water := Z.

(** [type_max<water>()] is [std::numeric_limits<uint16_t>::max()]. *)
Definition type_max : Z := 65535.

(** Conversion of an [int] result to [water]: reduction modulo 2^16. *)
Definition wrap16 (x : Z) : water := x mod 65536.

(** Values a [water] variable can hold. *)
Definition is_water (x : Z) : Prop := 0 ≤ x < 65536.

(** [size_t] arithmetic of a 64-bit target: reduction modulo 2^64. *)
Definition wrap64 (x : Z) : Z := x mod 18446744073709551616.

(** [std::numeric_limits<int>::max()] for the 32-bit [int]. *)
Definition INT_MAX : Z := 2147483647.

(** Conversion of an integer to [int]: the value congruent to it modulo 2^32
    between -2^31 and 2^31 - 1. *)
Definition to_int (x : Z) : Z := (x + 2147483648) mod 4294967296 - 2147483648.

Lemma wrap16_small x : is_water x → wrap16 x = x.
Proof. unfold is_water, wrap16. intros ?. apply Z.mod_small. lia. Qed.

Lemma wrap16_is_water x : is_water (wrap16 x).
Proof. unfold is_water, wrap16. apply Z.mod_pos_bound. lia. Qed.

End Water.
Export Water.

(** ** utils.h *)

Module Utils.

(** [gcd(x, y)]: [if (y == 0) return x; return gcd(y, static_cast<T>(x % y));]
    instantiated at [T = water].  The recursion is on the second argument,
    which decreases; [fuel] bounds its depth and [gcd2] supplies enough. *)
Fixpoint gcd_rec (fuel : nat) (x y : water) : water :=
  if decide (y = 0) then x
  else match fuel with
       | O => x
       | S fuel' => gcd_rec fuel' y (wrap16 (x `rem` y))
       end.

Definition gcd2 (x y : water) : water := gcd_rec (S (Z.to_nat y)) x y.

(** [gcd(x, y, args...)] with one further argument: [gcd(gcd(x, y), z)]. *)
Definition gcd3 (x y z : water) : water := gcd2 (gcd2 x y) z.

End Utils.
Export Utils.

(** ** The state model: class [VesselsState] *)

(** [class VesselsState : public std::array<water, 3>] *)
Record VesselsState : Type := Vessels { v0 : water; v1 : water; v2 : water }.

Arguments Vessels (v0 v1 v2)%_Z.

Global Instance VesselsState_eq_dec : EqDecision VesselsState.
Proof. solve_decision. Defined.

Definition to_triple (s : VesselsState) : Z * Z * Z := (v0 s, v1 s, v2 s).
Definition of_triple (t : Z * Z * Z) : VesselsState := Vessels t.1.1 t.1.2 t.2.

Lemma of_to_triple s : of_triple (to_triple s) = s.
Proof. by destruct s. Qed.

Global Instance VesselsState_countable : Countable VesselsState :=
  inj_countable' to_triple of_triple of_to_triple.

Module State.

(** The default constructor: [{0, 0, 0}]. *)
Definition empty : VesselsState := Vessels 0 0 0.

(** [std::array::at]: an index of 3 or more throws [std::out_of_range]. *)
Definition at_ (s : VesselsState) (i : nat) : option water :=
  match i with
  | 0%nat => Some (v0 s)
  | 1%nat => Some (v1 s)
  | 2%nat => Some (v2 s)
  | _ => None
  end.

(** Assignment through [at]: [s.at(i) = x]. *)
Definition set_at (s : VesselsState) (i : nat) (x : water) : option VesselsState :=
  match i with
  | 0%nat => Some (Vessels x (v1 s) (v2 s))
  | 1%nat => Some (Vessels (v0 s) x (v2 s))
  | 2%nat => Some (Vessels (v0 s) (v1 s) x)
  | _ => None
  end.

(** [operator()], the hash of the unordered set.  The arithmetic is that of
    [size_t]: every product and sum is reduced modulo 2^64. *)
Definition hash (state : VesselsState) : Z :=
  wrap64 (wrap64 (wrap64 (wrap64 (v0 state * type_max) + v1 state) * type_max)
          + v2 state).

(** [transfer(src, dst, volumes)] *)
Definition transfer (self : VesselsState) (src dst : nat) (volumes : VesselsState)
  : option VesselsState :=
  let result := self in
  vd ← at_ volumes dst;
  sd ← at_ self dst;
  let dst_free := wrap16 (vd - sd) in
  ss ← at_ self src;
  if decide (ss ≤ dst_free) then
    rd ← at_ result dst;
    result ← set_at result dst (wrap16 (rd + ss));
    set_at result src 0
  else
    rd ← at_ result dst;
    result ← set_at result dst (wrap16 (rd + dst_free));
    rs ← at_ result src;
    set_at result src (wrap16 (rs - dst_free)).

(** A counted [for] loop whose body pushes states onto the result vector:
    [for (unsigned i = first; i < first + count; i++) body(i)].  A body that
    throws ends the loop. *)
Fixpoint for_range {A} (first : nat) (count : nat) (body : nat → option (list A))
  : option (list A) :=
  match count with
  | O => Some []
  | S count' =>
      pushed ← body first;
      rest ← for_range (S first) count' body;
      Some (pushed ++ rest)
  end.

(** The primitive operations, used to label the successors. *)
Inductive Move : Type :=
  | Fill (v : nat)
  | Drain (v : nat)
  | Pour (src dst : nat).

Global Instance Move_eq_dec : EqDecision Move.
Proof. solve_decision. Defined.

(** The body of the inner loop of [next_states], for one [to]. *)
Definition pour_to (self volumes : VesselsState) (from to : nat)
  : option (list (Move * VesselsState)) :=
  if decide (from ≠ to) then
    t ← at_ self to;
    vt ← at_ volumes to;
    if decide (t < vt) then
      f ← at_ self from;
      if decide (f > 0) then
        new_state ← transfer self from to volumes;
        Some [(Pour from to, new_state)]
      else Some []
    else Some []
  else Some [].

(** The body of the outer loop of [next_states], for one [from]. *)
Definition moves_from (self volumes : VesselsState) (from : nat)
  : option (list (Move * VesselsState)) :=
  f ← at_ self from;
  fill ← (if decide (f = 0) then
            vf ← at_ volumes from;
            new_state ← set_at self from vf;
            Some [(Fill from, new_state)]
          else Some []);
  f ← at_ self from;
  drain ← (if decide (f ≠ 0) then
             new_state ← set_at self from 0;
             Some [(Drain from, new_state)]
           else Some []);
  pours ← for_range 0 3 (pour_to self volumes from);
  Some (fill ++ drain ++ pours).

(** [next_states(volumes)] with every pushed state labelled by the branch
    that pushed it. *)
Definition next_moves (self volumes : VesselsState)
  : option (list (Move * VesselsState)) :=
  for_range 0 3 (moves_from self volumes).

(** [next_states(volumes)]: the vector of pushed states. *)
Definition next_states (self volumes : VesselsState) : option (list VesselsState) :=
  moves ← next_moves self volumes;
  Some (moves.*2).

(** [contains(volume)] *)
Definition contains (self : VesselsState) (volume : water) : bool :=
  bool_decide (v0 self = volume) || bool_decide (v1 self = volume)
  || bool_decide (v2 self = volume).

(** The sum of the three levels. *)
Definition total (s : VesselsState) : Z := v0 s + v1 s + v2 s.

(** Every level is between 0 and the capacity of its vessel. *)
Definition in_bounds (volumes s : VesselsState) : Prop :=
  (0 ≤ v0 s ≤ v0 volumes) ∧ (0 ≤ v1 s ≤ v1 volumes) ∧ (0 ≤ v2 s ≤ v2 volumes).

(** The three capacities are [water] values. *)
Definition valid_volumes (volumes : VesselsState) : Prop :=
  is_water (v0 volumes) ∧ is_water (v1 volumes) ∧ is_water (v2 volumes).

End State.
Export State.

(** ** The search engine: class [WaterPouringPuzzleSolver] *)

Module Solver.

(** [using History = std::vector<std::pair<VesselsState, int>>].  The second
    component is the index of the entry the state was discovered from. *)
Abbreviation History := (list (VesselsState * Z)).

Definition INVALID_IDX : Z := -1.

(** The data members [m_volumes], [m_history] and [m_visited]. *)
Record Solver : Type := mkSolver {
  m_volumes : VesselsState;
  m_history : History;
  m_visited : gset VesselsState
}.

(** What a call of [solve_water] prints: nothing, the line of the zero
    target, or the table of [show] with one row per state of the solution. *)
Inductive output : Type :=
  | Silent
  | AllEmptyMessage
  | Table (rows : list VesselsState).

(** How a call of [solve_water] ends.  [calls] counts the calls of
    [next_states] made on the way (it is not a variable of the program). *)
Inductive outcome : Type :=
  | Returned (ret : Z) (out : output) (s : Solver) (calls : nat)
  | Aborted
  | OutOfFuel (s : Solver).

(** [init()] *)
Definition init (s : Solver) : Solver :=
  mkSolver (m_volumes s) [] ∅.

(** [m_visited.insert(x)] *)
Definition visit (x : VesselsState) (s : Solver) : Solver :=
  mkSolver (m_volumes s) (m_history s) ({[x]} ∪ m_visited s).

(** [m_history.emplace_back(x, idx)]: the pair is built from [idx], which is
    the [int] [INVALID_IDX] or the [size_t] position [ptr]; its second
    component is an [int], so [idx] is converted to [int]. *)
Definition record (x : VesselsState) (idx : Z) (s : Solver) : Solver :=
  mkSolver (m_volumes s) (m_history s ++ [(x, to_int idx)]) (m_visited s).

(** [m_history.at(static_cast<size_t>(idx))] for an [int] index: a negative
    index converts to a [size_t] beyond every size, so [at] throws. *)
Definition history_at (h : History) (idx : Z) : option (VesselsState * Z) :=
  if decide (idx < 0) then None else h !! Z.to_nat idx.

(** The first loop of [show]: from [history_idx], fill [solution[pos]] down
    to [solution[0]] while travelling back; the result is [solution[0..pos]].
    An assertion that fails ends the run, like an exception.  (A build with
    [NDEBUG] has no assertions: a walk that passes them here is the walk of
    either build.) *)
Fixpoint walk_back (h : History) (pos : nat) (history_idx : Z) : option (list Z) :=
  entry ← history_at h history_idx;
  let previous := entry.2 in
  match pos with
  | O => if decide (previous = -1) then Some [history_idx] else None
  | S pos' =>
      if decide (0 ≤ previous) then
        solution ← walk_back h pos' previous;
        Some (solution ++ [history_idx])
      else None
  end.

(** [show(target, steps)]: the rows of the printed table.  The walk starts
    from [static_cast<int>(m_history.size() - 1)]. *)
Definition show (s : Solver) (target : water) (steps : Z) : option output :=
  if decide (steps ≤ 0) then Some Silent
  else
    let h := m_history s in
    if decide (h = []) then None
    else
      let history_idx := to_int (wrap64 (Z.of_nat (length h) - 1)) in
      solution ← walk_back h (Z.to_nat steps) history_idx;
      rows ← mapM (λ idx, entry ← history_at h idx; Some entry.1) solution;
      Some (Table rows).

(** The result of a loop body: the function returned, the loop goes on, or
    an exception left it. *)
Inductive scan : Type :=
  | Hit (ret : Z) (out : output) (s : Solver)
  | Miss (s : Solver)
  | Throw.

(** The range-[for] over the successors of the history entry [ptr]. *)
Fixpoint scan_new_states (target : water) (step : Z) (ptr : nat)
    (new_states : list VesselsState) (s : Solver) : scan :=
  match new_states with
  | [] => Miss s
  | new_state :: rest =>
      if decide (new_state ∈ m_visited s) then
        scan_new_states target step ptr rest s
      else
        let s := visit new_state s in
        let s := record new_state (Z.of_nat ptr) s in
        if contains new_state target then
          match show s target step with
          | Some out => Hit step out s
          | None => Throw
          end
        else scan_new_states target step ptr rest s
  end.

(** [for (size_t ptr = old_ptr; ptr < next_ptr; ++ptr)], with
    [count = next_ptr - ptr] iterations to go. *)
Fixpoint expand_frontier (target : water) (step : Z) (ptr count : nat)
    (s : Solver) (calls : nat) : scan * nat :=
  match count with
  | O => (Miss s, calls)
  | S count' =>
      match m_history s !! ptr with
      | None => (Throw, calls)
      | Some (old_state, _) =>
          match next_states old_state (m_volumes s) with
          | None => (Throw, S calls)
          | Some new_states =>
              match scan_new_states target step ptr new_states s with
              | Miss s' => expand_frontier target step (S ptr) count' s' (S calls)
              | r => (r, S calls)
              end
          end
      end
  end.

(** [while (old_ptr != m_history.size())]; every executed round takes one
    unit of fuel. *)
Fixpoint bfs_loop (fuel : nat) (target : water) (step : Z) (old_ptr : nat)
    (s : Solver) (calls : nat) : outcome :=
  if decide (old_ptr = length (m_history s)) then Returned (-1) Silent s calls
  else
    match fuel with
    | O => OutOfFuel s
    | S fuel' =>
        let step := step + 1 in
        let next_ptr := length (m_history s) in
        match expand_frontier target step old_ptr (next_ptr - old_ptr) s calls with
        | (Hit ret out s', calls') => Returned ret out s' calls'
        | (Throw, _) => Aborted
        | (Miss s', calls') => bfs_loop fuel' target step next_ptr s' calls'
        end
    end.

(** [solve_water(target)] *)
Definition solve_water (fuel : nat) (s : Solver) (target : water) : outcome :=
  if decide (target = 0) then Returned 0 AllEmptyMessage s 0
  else
    let s := init s in
    let s := visit empty s in
    let s := visit (m_volumes s) s in
    let step := 0 in
    let old_ptr := 0%nat in
    let s := record empty INVALID_IDX s in
    bfs_loop fuel target step old_ptr s 0.

(** The constructor: [WaterPouringPuzzleSolver(volumes)]. *)
Definition new_solver (volumes : VesselsState) : Solver :=
  mkSolver volumes [] ∅.

(** The value a run returned, if it returned. *)
Definition returned (o : outcome) : option Z :=
  match o with
  | Returned ret _ _ _ => Some ret
  | _ => None
  end.

End Solver.
Export Solver.

(** ** The end of [main] *)

Module Main.

(** The built-in [%] on promoted integers: a zero divisor is undefined
    behaviour, the [None] result. *)
Definition rem_checked (a b : Z) : option Z :=
  if decide (b = 0) then None else Some (a `rem` b).

Definition EX_OK : Z := 0.
Definition EX_UNAVAILABLE : Z := 69.

(** How [main] ends once its arguments are parsed: with an exit status,
    after printing whether the GCD indicates the puzzle is unsolvable; in
    undefined behaviour; by an uncaught exception or a failed assertion. *)
Inductive main_outcome : Type :=
  | Exit (status : Z) (gcd_says_unsolvable : bool)
  | Undefined
  | Terminated
  | MainOutOfFuel.

(** [main] from the quick check on. *)
Definition run (fuel : nat) (volumes : VesselsState) (target : water) : main_outcome :=
  match at_ volumes 0, at_ volumes 1, at_ volumes 2 with
  | Some a, Some b, Some c =>
      let volume_gcd := gcd3 a b c in
      match rem_checked target volume_gcd with
      | None => Undefined
      | Some r =>
          let unsolvable := bool_decide (r ≠ 0) in
          let solver := new_solver volumes in
          match solve_water fuel solver target with
          | Returned ret _ _ _ =>
              if decide (ret < 0) then Exit EX_UNAVAILABLE unsolvable
              else Exit EX_OK unsolvable
          | Aborted => Terminated
          | OutOfFuel _ => MainOutOfFuel
          end
      end
  | _, _, _ => Terminated
  end.

End Main.
Export Main.

(** ** utils.h: sorting without a temporary *)

Module Sorting.

(** [sort2(a, b)]: [if (a > b) { a ^= b; b ^= a; a ^= b; }].  The two
    references are the two components; the exclusive or of two values of an
    integer type is a value of that type, so nothing is reduced. *)
Definition sort2 (a b : Z) : Z * Z :=
  if decide (a > b) then
    let a := Z.lxor a b in
    let b := Z.lxor b a in
    let a := Z.lxor a b in
    (a, b)
  else (a, b).

(** [sort3(a, b, c)]: [sort2(a, b); sort2(b, c); sort2(a, b);] on three
    distinct variables. *)
Definition sort3 (a b c : Z) : Z * Z * Z :=
  let '(a, b) := sort2 a b in
  let '(b, c) := sort2 b c in
  let '(a, b) := sort2 a b in
  (a, b, c).

End Sorting.
Export Sorting.

(** ** The beginning of [main] *)

Module CommandLine.

Definition EX_USAGE : Z := 64.
Definition EX_DATAERR : Z := 65.

(** What [strtol(argv[i], &end, 10)] gives for one argument: the number, and
    where the scan stopped ([end != argv[i]] and [*end == '\0']). *)
Record parsed : Type := Parsed {
  strtol_result : Z;
  end_moved : bool;
  end_at_nul : bool
}.

(** The body of the parsing loop for one argument: the value stored in
    [numbers[i]], or nothing when [main] rejects the argument. *)
Definition check_number (p : parsed) : option water :=
  let number := wrap16 (strtol_result p) in
  if decide (end_moved p = false ∨ end_at_nul p = false ∨ number ≠ strtol_result p)
  then None
  else Some number.

(** [std::sort(&numbers[1], &numbers[3])]: the first two numbers in
    ascending order. *)
Definition sort_first_two (a b : water) : water * water :=
  if decide (b < a) then (b, a) else (a, b).

(** How [main] ends: with the usage text, with the message for a rejected
    argument, or as [run] does on the capacities and the target it read. *)
Inductive main_end : Type :=
  | ExitUsage
  | ExitDataErr (argument : nat)
  | Ran (volumes : VesselsState) (target : water) (o : main_outcome).

(** [main], given what [strtol] makes of [argv[1]], [argv[2]], ...: the test
    of [argc], the four rounds of the parsing loop, the sort, and the rest. *)
Definition main (fuel : nat) (args : list parsed) : main_end :=
  match args with
  | [p1; p2; p3; p4] =>
      match check_number p1 with
      | None => ExitDataErr 1
      | Some n1 =>
      match check_number p2 with
      | None => ExitDataErr 2
      | Some n2 =>
      match check_number p3 with
      | None => ExitDataErr 3
      | Some n3 =>
      match check_number p4 with
      | None => ExitDataErr 4
      | Some n4 =>
          let '(n1, n2) := sort_first_two n1 n2 in
          let volumes := Vessels n1 n2 n3 in
          let target := n4 in
          Ran volumes target (run fuel volumes target)
      end end end end
  | _ => ExitUsage
  end.

(** The exit status of [main], when it exits. *)
Definition exit_status (e : main_end) : option Z :=
  match e with
  | ExitUsage => Some EX_USAGE
  | ExitDataErr _ => Some EX_DATAERR
  | Ran _ _ (Exit status _) => Some status
  | Ran _ _ _ => None
  end.

End CommandLine.
Export CommandLine.

(** ** Facts about the state model *)

Module StateFacts.

Lemma index_cases (i : nat) : (i < 3)%nat → i = 0%nat ∨ i = 1%nat ∨ i = 2%nat.
Proof. lia. Qed.

Ltac index_split H :=
  destruct (index_cases _ H) as [?|[?|?]]; subst.

Lemma at_is_Some s i : (i < 3)%nat ↔ is_Some (at_ s i).
Proof.
  split.
  - intros H. index_split H; simpl; eauto.
  - intros [x Hx]. destruct i as [|[|[|?]]]; simpl in *; try lia. discriminate.
Qed.

Lemma set_at_is_Some s i x : (i < 3)%nat ↔ is_Some (set_at s i x).
Proof.
  split.
  - intros H. index_split H; simpl; eauto.
  - intros [y Hy]. destruct i as [|[|[|?]]]; simpl in *; try lia. discriminate.
Qed.

Lemma at_set_at_eq s i x r : set_at s i x = Some r → at_ r i = Some x.
Proof. destruct i as [|[|[|?]]]; simpl; intros; simplify_eq; done. Qed.

Lemma at_set_at_ne s i j x r :
  set_at s i x = Some r → i ≠ j → at_ r j = at_ s j.
Proof.
  destruct i as [|[|[|?]]]; simpl; intros; simplify_eq;
    destruct j as [|[|[|?]]]; simpl; done.
Qed.

Lemma transfer_is_Some s src dst volumes :
  (src < 3)%nat → (dst < 3)%nat → is_Some (transfer s src dst volumes).
Proof.
  intros Hs Hd. unfold transfer.
  index_split Hs; index_split Hd; simpl; case_decide; simpl; eauto.
Qed.

Lemma for_range_spec {A} (body : nat → option (list A)) count first :
  (∀ i, (first ≤ i < first + count)%nat → is_Some (body i)) →
  ∃ l, for_range first count body = Some l ∧
       ∀ x, x ∈ l ↔ ∃ i li, (first ≤ i < first + count)%nat ∧ body i = Some li ∧ x ∈ li.
Proof.
  revert first. induction count as [|count IH]; intros first Hbody; simpl.
  - exists []. split; [done|]. intros x. split.
    + intros Hx. by apply elem_of_nil in Hx.
    + intros (i & li & Hi & _). lia.
  - destruct (Hbody first) as [l1 Hl1]; [lia|].
    destruct (IH (S first)) as (l2 & Hl2 & Hin); [intros; apply Hbody; lia|].
    rewrite Hl1, Hl2. simpl. exists (l1 ++ l2). split; [done|].
    intros x. rewrite elem_of_app, Hin. split.
    + intros [Hx|(i & li & Hi & Hli & Hx)].
      * exists first, l1. split; [lia|done].
      * exists i, li. split; [lia|done].
    + intros (i & li & Hi & Hli & Hx).
      destruct (decide (i = first)) as [->|Hne].
      * left. congruence.
      * right. exists i, li. split; [lia|done].
Qed.


#[local] Arguments for_range : simpl never.

(** One primitive operation, as the branches of [next_states] apply it. *)
Inductive move (volumes self : VesselsState) : Move → VesselsState → Prop :=
  | move_fill v vf new_state :
      at_ self v = Some 0 →
      at_ volumes v = Some vf →
      set_at self v vf = Some new_state →
      move volumes self (Fill v) new_state
  | move_drain v f new_state :
      at_ self v = Some f → f ≠ 0 →
      set_at self v 0 = Some new_state →
      move volumes self (Drain v) new_state
  | move_pour src dst f t vt new_state :
      src ≠ dst →
      at_ self dst = Some t → at_ volumes dst = Some vt → t < vt →
      at_ self src = Some f → f > 0 →
      transfer self src dst volumes = Some new_state →
      move volumes self (Pour src dst) new_state.

Lemma pour_to_spec s volumes from to :
  (from < 3)%nat → (to < 3)%nat →
  ∃ l, pour_to s volumes from to = Some l ∧
       ∀ x, x ∈ l ↔ ∃ s', x = (Pour from to, s') ∧ move volumes s (Pour from to) s'.
Proof.
  intros Hf Ht. unfold pour_to.
  destruct (proj1 (at_is_Some s to) Ht) as [t Et].
  destruct (proj1 (at_is_Some volumes to) Ht) as [vt Evt].
  destruct (proj1 (at_is_Some s from) Hf) as [f Ef].
  destruct (transfer_is_Some s from to volumes Hf Ht) as [r Er].
  rewrite Et, Evt, Ef, Er. simpl.
  assert (Hnil : (∀ s', ¬ move volumes s (Pour from to) s') →
    ∃ l : list (Move * VesselsState), Some [] = Some l ∧
      ∀ x, x ∈ l ↔ ∃ s', x = (Pour from to, s') ∧ move volumes s (Pour from to) s').
  { intros Hno. exists []. split; [done|]. intros x. split.
    - intros Hx. by apply elem_of_nil in Hx.
    - intros (s' & -> & Hm). by apply Hno in Hm. }
  repeat case_decide; try (apply Hnil; intros s' Hm; inversion Hm; subst;
                           simplify_eq; (done || lia)).
  exists [(Pour from to, r)]. split; [done|]. intros x.
  rewrite list_elem_of_singleton. split.
  - intros ->. exists r. split; [done|]. by eapply move_pour.
  - intros (s' & -> & Hm). inversion Hm; subst. by simplify_eq.
Qed.

Definition move_source (m : Move) : nat :=
  match m with Fill v | Drain v | Pour v _ => v end.

Lemma moves_from_spec s volumes from :
  (from < 3)%nat →
  ∃ l, moves_from s volumes from = Some l ∧
       ∀ m s', (m, s') ∈ l ↔ move volumes s m s' ∧ move_source m = from.
Proof.
  intros Hf. unfold moves_from.
  destruct (proj1 (at_is_Some s from) Hf) as [f Ef].
  destruct (proj1 (at_is_Some volumes from) Hf) as [vf Evf].
  destruct (proj1 (set_at_is_Some s from vf) Hf) as [sf Esf].
  destruct (proj1 (set_at_is_Some s from 0) Hf) as [sd Esd].
  destruct (for_range_spec (pour_to s volumes from) 3 0) as (lp & Elp & Hlp).
  { intros i Hi. destruct (pour_to_spec s volumes from i) as (l & -> & _); [done|lia|done]. }
  rewrite Ef. simpl.
  assert (Hpours : ∀ m s', (m, s') ∈ lp ↔ move volumes s m s' ∧ ∃ to, m = Pour from to).
  { intros m s'. rewrite Hlp. split.
    - intros (i & li & Hi & Hli & Hx).
      destruct (pour_to_spec s volumes from i) as (l & El & Hl); [done|lia|].
      rewrite El in Hli. simplify_eq. apply Hl in Hx as (s'' & ? & Hm). simplify_eq.
      eauto.
    - intros [Hm [to ->]].
      assert (to < 3)%nat as Hto.
      { inversion Hm; subst. apply (at_is_Some s to). eauto. }
      destruct (pour_to_spec s volumes from to) as (l & El & Hl); [done..|].
      exists to, l. split; [lia|]. split; [done|]. apply Hl. eauto. }
  destruct (decide (f = 0)) as [->|Hf0]; simpl.
  - rewrite Evf. simpl. rewrite Esf. simpl.
    rewrite Elp. simpl.
    eexists. split; [done|].
    intros m s'. rewrite elem_of_cons, Hpours. split.
    + intros [?|[Hm [to ->]]]; simplify_eq.
      * split; [|done]. by eapply move_fill.
      * done.
    + intros [Hm <-]. inversion Hm; subst; simpl in *; simplify_eq. by left.
  - rewrite (decide_False (P := f = 0)) by done.
    rewrite (decide_True (P := f ≠ 0)) by done. simpl. rewrite Esd. simpl. rewrite Elp. simpl.
    eexists. split; [done|].
    intros m s'. rewrite elem_of_cons, Hpours. split.
    + intros [?|[Hm [to ->]]]; simplify_eq.
      * split; [|done]. by eapply move_drain.
      * done.
    + intros [Hm <-]. inversion Hm; subst; simpl in *; simplify_eq.
      * by left.
      * right. eauto.
Qed.

(** [next_moves] never throws, and pushes exactly the applicable moves. *)
Lemma next_moves_spec s volumes :
  ∃ l, next_moves s volumes = Some l ∧ ∀ m s', (m, s') ∈ l ↔ move volumes s m s'.
Proof.
  unfold next_moves.
  destruct (for_range_spec (moves_from s volumes) 3 0) as (l & El & Hl).
  { intros i Hi. destruct (moves_from_spec s volumes i) as (l & -> & _); [lia|done]. }
  exists l. split; [done|]. intros m s'. rewrite Hl. split.
  - intros (i & li & Hi & Hli & Hx).
    destruct (moves_from_spec s volumes i) as (l' & El' & Hl'); [lia|].
    rewrite El' in Hli. simplify_eq. by apply Hl' in Hx as [? _].
  - intros Hm.
    assert (move_source m < 3)%nat as Hsrc.
    { inversion Hm; subst; simpl; apply (at_is_Some s); eauto. }
    destruct (moves_from_spec s volumes (move_source m)) as (l' & El' & Hl'); [done|].
    exists (move_source m), l'. split; [lia|]. split; [done|]. by apply Hl'.
Qed.

(** [s'] is one of the states [next_states] pushes for [s]. *)
Definition successor (volumes s s' : VesselsState) : Prop :=
  ∃ l, next_states s volumes = Some l ∧ s' ∈ l.

Lemma next_states_total s volumes : is_Some (next_states s volumes).
Proof.
  unfold next_states. destruct (next_moves_spec s volumes) as (l & -> & _). simpl. eauto.
Qed.

Lemma successor_move volumes s s' :
  successor volumes s s' ↔ ∃ m, move volumes s m s'.
Proof.
  unfold successor, next_states.
  destruct (next_moves_spec s volumes) as (l & -> & Hl). simpl. split.
  - intros (l' & ? & Hin). simplify_eq.
    apply list_elem_of_fmap in Hin as ([m s''] & -> & Hin). exists m. by apply Hl.
  - intros [m Hm]. eexists. split; [done|].
    apply list_elem_of_fmap. exists (m, s'). split; [done|]. by apply Hl.
Qed.


(** The number of states pushed: for each vessel one Fill or Drain and at
    most two Pours. *)
Lemma for_range_3 {A} (body : nat → option (list A)) l :
  for_range 0 3 body = Some l →
  ∃ l0 l1 l2, body 0%nat = Some l0 ∧ body 1%nat = Some l1 ∧ body 2%nat = Some l2 ∧
              l = l0 ++ l1 ++ l2.
Proof.
  unfold for_range.
  destruct (body 0%nat) as [l0|]; [|done].
  destruct (body 1%nat) as [l1|]; [|done].
  destruct (body 2%nat) as [l2|]; [|done].
  simpl. intros ?. simplify_eq. exists l0, l1, l2. by rewrite app_nil_r.
Qed.

Lemma pour_to_length s volumes from to l :
  pour_to s volumes from to = Some l →
  (length l ≤ 1)%nat ∧ (from = to → l = []).
Proof.
  unfold pour_to. intros Hl. split.
  - repeat case_decide; simplify_option_eq; simpl; lia.
  - intros ->. rewrite decide_False in Hl by (intros ?; done). by simplify_eq.
Qed.

Lemma moves_from_length s volumes from l :
  (from < 3)%nat → moves_from s volumes from = Some l →
  (1 ≤ length l ≤ 3)%nat.
Proof.
  intros Hfrom. unfold moves_from.
  destruct (at_ s from) as [f|] eqn:Ef; [|done]. simpl.
  intros Hl.
  assert (∃ first pours,
            for_range 0 3 (pour_to s volumes from) = Some pours ∧
            l = first :: pours) as (first & pours & Hp & ->).
  { destruct (decide (f = 0)) as [Hf|Hf].
    - rewrite (decide_True (P := f = 0)) in Hl by done.
      rewrite (decide_False (P := f ≠ 0)) in Hl by (intros ?; done).
      destruct (at_ volumes from) as [vf|]; [|done]. simpl in Hl.
      destruct (set_at s from vf) as [t|]; [|done]. simpl in Hl.
      destruct (for_range 0 3 (pour_to s volumes from)) as [pours|]; [|done].
      simpl in Hl. simplify_eq. eauto.
    - rewrite (decide_False (P := f = 0)) in Hl by done.
      rewrite (decide_True (P := f ≠ 0)) in Hl by done. simpl in Hl.
      destruct (set_at s from 0) as [t|]; [|done]. simpl in Hl.
      destruct (for_range 0 3 (pour_to s volumes from)) as [pours|]; [|done].
      simpl in Hl. simplify_eq. eauto. }
  apply for_range_3 in Hp as (l0 & l1 & l2 & H0 & H1 & H2 & ->).
  apply pour_to_length in H0 as [? E0], H1 as [? E1], H2 as [? E2].
  simpl. rewrite !length_app.
  destruct from as [|[|[|?]]]; [rewrite E0|rewrite E1|rewrite E2|]; simpl; try done; lia.
Qed.

Lemma next_states_length s volumes l :
  next_states s volumes = Some l → (3 ≤ length l ≤ 9)%nat.
Proof.
  unfold next_states. destruct (next_moves s volumes) as [moves|] eqn:Hmoves; [|done].
  simpl. intros [= <-]. rewrite length_fmap. unfold next_moves in Hmoves.
  apply for_range_3 in Hmoves as (l0 & l1 & l2 & H0 & H1 & H2 & ->).
  apply moves_from_length in H0, H1, H2; try lia.
  rewrite !length_app. lia.
Qed.


(** Under the bounds no 16-bit conversion of [transfer] changes a value. *)
Ltac unwrap :=
  unfold wrap16 in *;
  repeat match goal with
  | |- context [?a mod 65536] => rewrite (Z.mod_small a 65536) by lia
  | H : context [?a mod 65536] |- _ => rewrite (Z.mod_small a 65536) in H by lia
  end.

Ltac open_states :=
  repeat match goal with
  | s : VesselsState |- _ => destruct s
  end;
  unfold in_bounds, valid_volumes, is_water, total in *; simpl in *.

Lemma at_lt s i x : at_ s i = Some x → (i < 3)%nat.
Proof. intros. apply (at_is_Some s). eauto. Qed.

(** The two cases of [transfer], on a state within bounds. *)
Lemma transfer_spec volumes s src dst a b c :
  valid_volumes volumes → in_bounds volumes s →
  src ≠ dst →
  at_ s src = Some a → at_ s dst = Some b → at_ volumes dst = Some c →
  ∃ r, transfer s src dst volumes = Some r ∧
       (if decide (a ≤ c - b)
        then at_ r src = Some 0 ∧ at_ r dst = Some (b + a)
        else at_ r dst = Some c ∧ at_ r src = Some (a - (c - b))) ∧
       ∀ k, k ≠ src → k ≠ dst → at_ r k = at_ s k.
Proof.
  intros Hv Hb Hne Ha Hb' Hc.
  pose proof (at_lt _ _ _ Ha) as Hs. pose proof (at_lt _ _ _ Hb') as Hd.
  unfold transfer.
  index_split Hs; index_split Hd; try done; open_states; simplify_eq;
    unwrap; repeat case_decide; try lia; simpl; unwrap;
    (eexists; split; [done|]; simpl; split;
     [split; f_equal; lia | by intros [|[|[|?]]]]).
Qed.

Lemma move_in_bounds volumes s m s' :
  valid_volumes volumes → in_bounds volumes s →
  move volumes s m s' → in_bounds volumes s'.
Proof.
  intros Hv Hb Hm. inversion Hm as [v vf r Ha Hc Hr|v f r Ha Hf Hr|src dst f t vt r Hne Ht Hvt Hlt Hf Hpos Hr]; subst.
  - pose proof (at_lt _ _ _ Ha) as Hi. index_split Hi; open_states; simplify_eq; simpl; lia.
  - pose proof (at_lt _ _ _ Ha) as Hi. index_split Hi; open_states; simplify_eq; simpl; lia.
  - destruct (transfer_spec volumes s src dst f t vt) as (r' & Er & Hcase & Hothers); try done.
    rewrite Er in Hr. simplify_eq.
    pose proof (at_lt _ _ _ Hf) as Hs. pose proof (at_lt _ _ _ Ht) as Hd.
    index_split Hs; index_split Hd; try done;
      [specialize (Hothers 2%nat)|specialize (Hothers 1%nat)|specialize (Hothers 2%nat)
      |specialize (Hothers 0%nat)|specialize (Hothers 1%nat)|specialize (Hothers 0%nat)];
      specialize (Hothers ltac:(done) ltac:(done));
      case_decide; destruct Hcase; open_states; simplify_eq; lia.
Qed.


(** What one move does to the sum of the levels. *)
Lemma move_total volumes s m s' :
  valid_volumes volumes → in_bounds volumes s →
  move volumes s m s' →
  match m with
  | Fill v => ∃ c, at_ volumes v = Some c ∧ total s' = total s + c
  | Drain v => ∃ f, at_ s v = Some f ∧ total s' = total s - f
  | Pour _ _ => total s' = total s
  end.
Proof.
  intros Hv Hb Hm. inversion Hm as [v vf r Ha Hc Hr|v f r Ha Hf Hr|src dst f t vt r Hne Ht Hvt Hlt Hf Hpos Hr]; subst.
  - exists vf. split; [done|].
    pose proof (at_lt _ _ _ Ha) as Hi. index_split Hi; open_states; simplify_eq; simpl; lia.
  - exists f. split; [done|].
    pose proof (at_lt _ _ _ Ha) as Hi. index_split Hi; open_states; simplify_eq; simpl; lia.
  - destruct (transfer_spec volumes s src dst f t vt) as (r' & Er & Hcase & Hothers); try done.
    rewrite Er in Hr. simplify_eq.
    pose proof (at_lt _ _ _ Hf) as Hs. pose proof (at_lt _ _ _ Ht) as Hd.
    index_split Hs; index_split Hd; try done;
      [specialize (Hothers 2%nat)|specialize (Hothers 1%nat)|specialize (Hothers 2%nat)
      |specialize (Hothers 0%nat)|specialize (Hothers 1%nat)|specialize (Hothers 0%nat)];
      specialize (Hothers ltac:(done) ltac:(done));
      case_decide; destruct Hcase; open_states; simplify_eq; lia.
Qed.

(** Every level is a multiple of [g]. *)
Definition levels_divide (g : Z) (s : VesselsState) : Prop :=
  (g | v0 s) ∧ (g | v1 s) ∧ (g | v2 s).

Lemma move_levels_divide g volumes s m s' :
  valid_volumes volumes → in_bounds volumes s →
  levels_divide g volumes → levels_divide g s →
  move volumes s m s' → levels_divide g s'.
Proof.
  intros Hv Hb Hgv Hgs Hm. inversion Hm as [v vf r Ha Hc Hr|v f r Ha Hf Hr|src dst f t vt r Hne Ht Hvt Hlt Hf Hpos Hr]; subst.
  - pose proof (at_lt _ _ _ Ha) as Hi.
    index_split Hi; destruct s, volumes; unfold levels_divide in *; simpl in *;
      simplify_eq; simpl; tauto.
  - pose proof (at_lt _ _ _ Ha) as Hi.
    index_split Hi; destruct s, volumes; unfold levels_divide in *; simpl in *;
      simplify_eq; simpl; pose proof (Z.divide_0_r g); tauto.
  - destruct (transfer_spec volumes s src dst f t vt) as (r' & Er & Hcase & Hothers); try done.
    rewrite Er in Hr. simplify_eq.
    pose proof (at_lt _ _ _ Hf) as Hs. pose proof (at_lt _ _ _ Ht) as Hd.
    pose proof (Z.divide_0_r g).
    index_split Hs; index_split Hd; try done;
      [specialize (Hothers 2%nat)|specialize (Hothers 1%nat)|specialize (Hothers 2%nat)
      |specialize (Hothers 0%nat)|specialize (Hothers 1%nat)|specialize (Hothers 0%nat)];
      specialize (Hothers ltac:(done) ltac:(done));
      case_decide; destruct Hcase; destruct s, volumes, s';
      unfold levels_divide in *; simpl in *; simplify_eq;
      destruct Hgv as (?&?&?); destruct Hgs as (?&?&?);
      repeat split; auto using Z.divide_add_r, Z.divide_sub_r.
Qed.

Lemma contains_spec s x :
  contains s x = true ↔ v0 s = x ∨ v1 s = x ∨ v2 s = x.
Proof.
  unfold contains. rewrite !orb_true_iff, !bool_decide_eq_true. tauto.
Qed.

Lemma contains_empty x : x ≠ 0 → contains empty x = false.
Proof.
  intros Hx. apply not_true_is_false. rewrite contains_spec. simpl. intros [?|[?|?]]; congruence.
Qed.

Lemma in_bounds_empty volumes : valid_volumes volumes → in_bounds volumes empty.
Proof. unfold valid_volumes, in_bounds, is_water. simpl. lia. Qed.

Lemma in_bounds_volumes volumes : valid_volumes volumes → in_bounds volumes volumes.
Proof. unfold valid_volumes, in_bounds, is_water. simpl. lia. Qed.

End StateFacts.
Export StateFacts.
(** ** The transition graph *)

Module Graph.

(** [reachable volumes n s]: [n] primitive operations lead from the all-empty
    state to [s]. *)
Inductive reachable (volumes : VesselsState) : nat → VesselsState → Prop :=
  | reachable_empty : reachable volumes 0 empty
  | reachable_step n s s' :
      reachable volumes n s → successor volumes s s' →
      reachable volumes (S n) s'.

(** The same, through operations none of which produces the all-full state
    (the state equal to [volumes]). *)
Inductive avoiding (volumes : VesselsState) : nat → VesselsState → Prop :=
  | avoiding_empty : avoiding volumes 0 empty
  | avoiding_step n s s' :
      avoiding volumes n s → successor volumes s s' → s' ≠ volumes →
      avoiding volumes (S n) s'.

Lemma avoiding_reachable volumes n s : avoiding volumes n s → reachable volumes n s.
Proof. induction 1; econstructor; eauto. Qed.

Lemma successor_in_bounds volumes s s' :
  valid_volumes volumes → in_bounds volumes s → successor volumes s s' →
  in_bounds volumes s'.
Proof.
  intros Hv Hb Hs. apply successor_move in Hs as [m Hm]. by eapply move_in_bounds.
Qed.

Lemma reachable_in_bounds volumes n s :
  valid_volumes volumes → reachable volumes n s → in_bounds volumes s.
Proof.
  intros Hv. induction 1.
  - by apply in_bounds_empty.
  - by eapply successor_in_bounds.
Qed.

End Graph.
Export Graph.

(** ** Facts about the search engine *)

Module SearchFacts.

(** The states of the history entries, in order. *)
Definition states (h : History) : list VesselsState := h.*1.

(** *** The [int] indices *)

Lemma to_int_small x : -2147483648 ≤ x ≤ INT_MAX → to_int x = x.
Proof. unfold to_int, INT_MAX. intros ?. rewrite Z.mod_small by lia. lia. Qed.

Lemma to_int_range x : -2147483648 ≤ to_int x ≤ INT_MAX.
Proof.
  unfold to_int, INT_MAX.
  pose proof (Z.mod_pos_bound (x + 2147483648) 4294967296). lia.
Qed.

(** The index [show] starts from is the last position of the history while
    the history has at most 2^31 entries. *)
Lemma last_index_small (n : nat) :
  (0 < n)%nat → Z.of_nat n ≤ INT_MAX + 1 →
  to_int (wrap64 (Z.of_nat n - 1)) = Z.of_nat (n - 1).
Proof.
  unfold INT_MAX, wrap64. intros Hpos Hn.
  rewrite Z.mod_small by lia. rewrite to_int_small by (unfold INT_MAX; lia). lia.
Qed.

(** It is negative when the history has more than 2^31 and at most 2^32
    entries. *)
Lemma last_index_negative (n : nat) :
  INT_MAX + 1 < Z.of_nat n ≤ 4294967296 →
  to_int (wrap64 (Z.of_nat n - 1)) < 0.
Proof.
  unfold INT_MAX, wrap64, to_int. intros Hn.
  rewrite (Z.mod_small (Z.of_nat n - 1)) by lia.
  replace (Z.of_nat n - 1 + 2147483648)
    with (Z.of_nat n - 1 - 2147483648 + 1 * 4294967296) by lia.
  rewrite Z.mod_add by lia. rewrite Z.mod_small by lia. lia.
Qed.

(** [rooted h pos i]: the entry [i] names an earlier entry, that one an
    earlier one, and so on to the first entry, which names none, in [pos]
    steps.  The positions are those of the history; what an entry stores is
    the position converted to [int]. *)
Inductive rooted (h : History) : nat → nat → Prop :=
  | rooted_first x : h !! 0%nat = Some (x, INVALID_IDX) → rooted h 0 0
  | rooted_next pos i p x :
      h !! i = Some (x, to_int (Z.of_nat p)) → (p < i)%nat → rooted h pos p →
      rooted h (S pos) i.

(** The backward walk of [show] from entry [i] succeeds with [pos + 1]
    entries, all of them in the history. *)
Definition walk_ok (h : History) (pos i : nat) : Prop :=
  ∃ solution, walk_back h pos (Z.of_nat i) = Some solution ∧
              ∀ idx, idx ∈ solution → is_Some (history_at h idx).

Lemma history_at_app h h' idx e :
  history_at h idx = Some e → history_at (h ++ h') idx = Some e.
Proof.
  unfold history_at. case_decide; [done|]. intros He.
  by apply lookup_app_l_Some.
Qed.

Lemma history_at_of_nat h (i : nat) : history_at h (Z.of_nat i) = h !! i.
Proof.
  unfold history_at. rewrite decide_False by lia. by rewrite Nat2Z.id.
Qed.

Lemma rooted_app h h' pos i : rooted h pos i → rooted (h ++ h') pos i.
Proof.
  induction 1 as [x Hx|pos i p x Hi Hp _ IH].
  - apply (rooted_first _ x). by apply lookup_app_l_Some.
  - apply (rooted_next _ pos i p x); [by apply lookup_app_l_Some|done..].
Qed.

(** While the positions of the history fit an [int], the walk of [show]
    follows the chain of predecessors and passes its assertions. *)
Lemma rooted_walk_ok h pos i :
  Z.of_nat (length h) ≤ INT_MAX + 1 → rooted h pos i → walk_ok h pos i.
Proof.
  intros Hlen. induction 1 as [x Hx|pos i p x Hi Hp _ IH].
  - pose proof (history_at_of_nat h 0) as H0.
    change (Z.of_nat 0) with 0 in H0. rewrite Hx in H0.
    exists [0]. split.
    + change (Z.of_nat 0) with 0. cbn [walk_back]. by rewrite H0.
    + intros idx ->%list_elem_of_singleton. by eexists.
  - destruct IH as (sol & Hw & Hin).
    pose proof (lookup_lt_Some _ _ _ Hi) as Hlt.
    assert (to_int (Z.of_nat p) = Z.of_nat p) as Hq.
    { apply to_int_small. lia. }
    exists (sol ++ [Z.of_nat i]). split.
    + simpl. rewrite history_at_of_nat, Hi. simpl. rewrite Hq.
      rewrite decide_True by lia. by rewrite Hw.
    + intros idx [?| ->%list_elem_of_singleton]%elem_of_app; [by apply Hin|].
      rewrite history_at_of_nat. by eexists.
Qed.

(** The rows [show] prints are states of the history. *)
Lemma show_rows s target steps out :
  0 < steps → show s target steps = Some out →
  ∃ rows, out = Table rows ∧ ∀ r, r ∈ rows → r ∈ states (m_history s).
Proof.
  intros Hsteps. unfold show. rewrite decide_False by lia.
  case_decide; [done|]. cbn zeta.
  destruct (walk_back _ _ _) as [solution|]; [|done]. simpl.
  set (f := λ idx : Z, history_at (m_history s) idx ≫= λ entry, Some entry.1).
  destruct (mapM f solution) as [rows|] eqn:Hrows; [|done]. simpl.
  intros [= <-]. exists rows. split; [done|].
  apply mapM_Some in Hrows. intros r Hr.
  apply list_elem_of_lookup in Hr as [j Hj].
  destruct (Forall2_lookup_r _ _ _ _ _ Hrows Hj) as (idx & _ & Hf).
  unfold f in Hf. destruct (history_at (m_history s) idx) as [[x q]|] eqn:Hidx; [|done].
  simpl in Hf. injection Hf as ->.
  unfold history_at in Hidx. case_decide; [done|].
  apply list_elem_of_fmap. exists (r, q). split; [done|].
  by eapply list_elem_of_lookup_2.
Qed.

Lemma show_ok s target k :
  m_history s ≠ [] → Z.of_nat (length (m_history s)) ≤ INT_MAX + 1 →
  walk_ok (m_history s) (S k) (length (m_history s) - 1) →
  is_Some (show s target (Z.of_nat (S k))).
Proof.
  intros Hne Hlen (sol & Hw & Hin). unfold show.
  rewrite decide_False by lia. rewrite decide_False by done.
  rewrite Nat2Z.id. cbn zeta.
  rewrite last_index_small; [|destruct (m_history s); [done|simpl; lia]|done].
  rewrite Hw. simpl.
  set (f := λ idx : Z, history_at (m_history s) idx ≫= λ entry, Some entry.1).
  assert (is_Some (mapM f sol)) as [rows ->]; [|by eexists].
  clear Hw. induction sol as [|idx sol IH]; [by eexists|].
  destruct IH as [rows Hrows].
  { intros i' Hi'. apply Hin. by right. }
  destruct (Hin idx) as [[e q] He]; [by left|].
  exists (e :: rows). rewrite mapM_Some. constructor.
  - unfold f. by rewrite He.
  - by apply mapM_Some.
Qed.

(** [show] throws when the history has more than 2^31 and at most 2^32
    entries: the index it starts from is negative. *)
Lemma show_throws s target steps :
  0 < steps → INT_MAX + 1 < Z.of_nat (length (m_history s)) ≤ 4294967296 →
  show s target steps = None.
Proof.
  intros Hsteps Hlen. unfold show. rewrite decide_False by lia.
  case_decide as Hnil; [done|]. cbn zeta.
  pose proof (last_index_negative _ Hlen) as Hneg.
  destruct (Z.to_nat steps); simpl; unfold history_at;
    by rewrite decide_True by done.
Qed.

(** *** The size of the state space *)

(** The number of states within the bounds of [volumes]: the product of the
    three capacities plus one. *)
Definition state_space (volumes : VesselsState) : nat :=
  (Z.to_nat (v0 volumes + 1) * Z.to_nat (v1 volumes + 1) * Z.to_nat (v2 volumes + 1))%nat.

Definition all_states (volumes : VesselsState) : list VesselsState :=
  a ← seqZ 0 (v0 volumes + 1);
  b ← seqZ 0 (v1 volumes + 1);
  c ← seqZ 0 (v2 volumes + 1);
  [Vessels a b c].

Lemma length_bind_const {A B} (f : A → list B) (n : nat) (l : list A) :
  (∀ x, length (f x) = n) → length (l ≫= f) = (length l * n)%nat.
Proof.
  intros Hf. induction l as [|x l IH]; [done|].
  rewrite bind_cons, length_app, Hf, IH. simpl. lia.
Qed.

Lemma length_all_states volumes : length (all_states volumes) = state_space volumes.
Proof.
  unfold all_states, state_space.
  rewrite (length_bind_const _ (Z.to_nat (v1 volumes + 1) * Z.to_nat (v2 volumes + 1))).
  - rewrite length_seqZ. lia.
  - intros a. rewrite (length_bind_const _ (Z.to_nat (v2 volumes + 1))).
    + by rewrite length_seqZ.
    + intros b. rewrite (length_bind_const _ 1%nat); [|done].
      rewrite length_seqZ. lia.
Qed.

Lemma in_bounds_all_states volumes x : in_bounds volumes x → x ∈ all_states volumes.
Proof.
  destruct x as [a b c]. unfold in_bounds. simpl. intros (Ha & Hb & Hc).
  unfold all_states.
  apply list_elem_of_bind. exists a. split; [|apply elem_of_seqZ; lia].
  apply list_elem_of_bind. exists b. split; [|apply elem_of_seqZ; lia].
  apply list_elem_of_bind. exists c. split; [|apply elem_of_seqZ; lia].
  by apply list_elem_of_singleton.
Qed.

(** Distinct states within the bounds are at most [state_space] many. *)
Lemma bounded_length volumes (l : list VesselsState) :
  NoDup l → (∀ x, x ∈ l → in_bounds volumes x) →
  (length l ≤ state_space volumes)%nat.
Proof.
  intros Hnd Hb. rewrite <- length_all_states.
  apply submseteq_length, NoDup_submseteq; [done|].
  intros x Hx. by apply in_bounds_all_states, Hb.
Qed.

(** *** The invariants of the search *)

Section Search.

Variable volumes : VesselsState.
Variable target : water.
Hypothesis Hvalid : valid_volumes volumes.
Hypothesis Htarget : target ≠ 0.

(** What holds of the solver from the start of the search loop on. *)
Record base_inv (s : Solver) : Prop := BaseInv {
  inv_volumes : m_volumes s = volumes;
  inv_root : ∃ h, m_history s = (empty, INVALID_IDX) :: h;
  inv_visited : ∀ x,
    x ∈ m_visited s ↔ x = empty ∨ x = volumes ∨ x ∈ states (m_history s);
  inv_nodup : NoDup (states (m_history s));
  inv_bounds : ∀ x, x ∈ states (m_history s) → in_bounds volumes x;
  inv_full : ∀ i x q,
    (0 < i)%nat → m_history s !! i = Some (x, q) → x ≠ volumes;
  inv_pred : ∀ i x q,
    m_history s !! i = Some (x, q) →
    (i = 0%nat ∧ q = INVALID_IDX) ∨ ∃ p, (p < i)%nat ∧ q = to_int (Z.of_nat p)
}.

(** No recorded state holds the target. *)
Definition no_goal (s : Solver) : Prop :=
  ∀ x, x ∈ states (m_history s) → contains x target = false.

(** What holds inside round [k + 1], whose frontier is the entries
    [p .. n0 - 1], when the entries before [ptr] have been expanded. *)
Record round_inv (k p n0 ptr : nat) (s : Solver) : Prop := RoundInv {
  r_base : base_inv s;
  r_range : (p ≤ ptr ∧ ptr ≤ n0 ∧ n0 ≤ length (m_history s))%nat;
  r_frontier : ∀ i x q,
    (p ≤ i < n0)%nat → m_history s !! i = Some (x, q) →
    avoiding volumes k x ∧ rooted (m_history s) k i;
  r_new : ∀ i x q,
    (n0 ≤ i)%nat → m_history s !! i = Some (x, q) →
    avoiding volumes (S k) x ∧ rooted (m_history s) (S k) i;
  r_closed : ∀ i x q x',
    (i < ptr)%nat → m_history s !! i = Some (x, q) →
    successor volumes x x' → x' ≠ volumes → x' ∈ states (m_history s);
  r_complete : ∀ d x,
    avoiding volumes d x → (d ≤ k)%nat →
    ∃ i q, (i < n0)%nat ∧ m_history s !! i = Some (x, q);
  r_rounds : (k ≤ p)%nat;
  r_first : k = 0%nat → p = 0%nat ∧ n0 = 1%nat
}.

Lemma states_record h x q : states (h ++ [(x, q)]) = states h ++ [x].
Proof. unfold states. by rewrite fmap_app. Qed.

Lemma elem_of_states h x : x ∈ states h ↔ ∃ i q, h !! i = Some (x, q).
Proof.
  unfold states. rewrite list_elem_of_fmap. split.
  - intros ([y q] & -> & Hin). apply list_elem_of_lookup in Hin as [i Hi]. eauto.
  - intros (i & q & Hi). exists (x, q). split; [done|]. by eapply list_elem_of_lookup_2.
Qed.

Lemma base_inv_empty_in s : base_inv s → empty ∈ states (m_history s).
Proof. intros [_ [h ->] _ _ _ _ _]. by left. Qed.

(** The history has at most as many entries as there are states within the
    bounds. *)
Lemma base_inv_length s :
  base_inv s → (length (m_history s) ≤ state_space volumes)%nat.
Proof.
  intros Hbase.
  pose proof (bounded_length volumes _ (inv_nodup _ Hbase) (inv_bounds _ Hbase)) as Hlen.
  unfold states in Hlen. by rewrite length_fmap in Hlen.
Qed.

Lemma base_inv_record s x y q ptr :
  base_inv s →
  m_history s !! ptr = Some (x, q) →
  successor volumes x y → y ∉ m_visited s →
  base_inv (record y (Z.of_nat ptr) (visit y s)).
Proof.
  intros [Hvol [h Hroot] Hvis Hnd Hbd Hfull Hpred] Hx Hsucc Hnew.
  assert (Hy : y ≠ empty ∧ y ≠ volumes ∧ y ∉ states (m_history s)).
  { rewrite Hvis in Hnew. tauto. }
  destruct Hy as (Hy1 & Hy2 & Hy3).
  constructor; unfold record, visit; cbn [m_history m_visited m_volumes].
  - done.
  - exists (h ++ [(y, to_int (Z.of_nat ptr))]). by rewrite Hroot.
  - intros z. rewrite states_record, elem_of_union, elem_of_singleton, Hvis, elem_of_app,
      list_elem_of_singleton. tauto.
  - rewrite states_record. apply NoDup_app. split; [done|]. split.
    + intros z Hz ->%list_elem_of_singleton. done.
    + apply NoDup_singleton.
  - intros z. rewrite states_record, elem_of_app, list_elem_of_singleton.
    intros [Hz| ->]; [by apply Hbd|].
    eapply successor_in_bounds; [done| |done].
    apply Hbd, elem_of_states. eauto.
  - intros i z q' Hi Hz.
    apply lookup_app_Some in Hz as [Hz|[_ Hz]]; [by eapply Hfull|].
    apply list_lookup_singleton_Some in Hz as [_ ?]. by simplify_eq.
  - intros i z q' Hz.
    apply lookup_app_Some in Hz as [Hz|[Hlen Hz]]; [by eapply Hpred|].
    apply list_lookup_singleton_Some in Hz as [Hi ?]. simplify_eq.
    apply lookup_lt_Some in Hx. right. exists ptr. split; [lia|done].
Qed.

Lemma round_inv_record k p n0 ptr s x q y :
  round_inv k p n0 ptr s → (p ≤ ptr < n0)%nat →
  m_history s !! ptr = Some (x, q) →
  successor volumes x y → y ∉ m_visited s →
  round_inv k p n0 ptr (record y (Z.of_nat ptr) (visit y s)).
Proof.
  intros [Hbase Hrange Hfront Hnew Hclosed Hcompl Hrounds Hfirst] Hptr Hx Hsucc Hfresh.
  assert (Hy2 : y ≠ volumes).
  { intros ->. apply Hfresh, (inv_visited _ Hbase). tauto. }
  constructor; unfold record, visit; cbn [m_history m_visited m_volumes].
  - by eapply base_inv_record.
  - rewrite length_app. simpl. lia.
  - intros i z q' Hi Hz. rewrite lookup_app_l in Hz by lia.
    destruct (Hfront i z q' Hi Hz) as [? ?]. split; [done|]. by apply rooted_app.
  - intros i z q' Hi Hz.
    apply lookup_app_Some in Hz as [Hz|[Hlen Hz]].
    + destruct (Hnew i z q' Hi Hz) as [? ?]. split; [done|]. by apply rooted_app.
    + apply list_lookup_singleton_Some in Hz as [Hi0 ?]. simplify_eq.
      assert (i = length (m_history s)) as -> by lia.
      destruct (Hfront ptr x q Hptr Hx) as [Hav Hroot].
      split; [by eapply avoiding_step|].
      eapply (rooted_next _ k _ ptr).
      * by apply list_lookup_middle.
      * lia.
      * by apply rooted_app.
  - intros i z q' z' Hi Hz Hsucc' Hne.
    rewrite lookup_app_l in Hz by lia.
    rewrite states_record, elem_of_app. left. by eapply Hclosed.
  - intros d z Hav Hd. destruct (Hcompl d z Hav Hd) as (i & q' & Hi & Hz).
    exists i, q'. split; [done|]. by apply lookup_app_l_Some.
  - done.
  - done.
Qed.


(** What holds when round [k + 1] finds the target: the state recorded last
    holds it, [k + 1] operations that avoid the all-full state lead to it, no
    fewer do, and [show] prints recorded states other than the all-full one. *)
Record hit_post (k : nat) (s : Solver) (out : output) : Prop := HitPost {
  hit_base : base_inv s;
  hit_goal : ∃ g, last (states (m_history s)) = Some g ∧
                  avoiding volumes (S k) g ∧ contains g target = true;
  hit_least : ∀ d y, avoiding volumes d y → contains y target = true → (S k ≤ d)%nat;
  hit_rows : ∃ rows, out = Table rows ∧
                     ∀ r, r ∈ rows → r ∈ states (m_history s) ∧ r ≠ volumes;
  hit_steps : (S k < length (m_history s))%nat
}.

(** What holds when [show] throws in round [k + 1]: the target was found, in
    the least number of operations, and the history had more than [INT_MAX]
    entries, of at most [m]. *)
Record abort_post (k m : nat) : Prop := AbortPost {
  abort_goal : ∃ g, avoiding volumes (S k) g ∧ contains g target = true;
  abort_least : ∀ d y, avoiding volumes d y → contains y target = true → (S k ≤ d)%nat;
  abort_size : ∃ n : nat,
    INT_MAX < Z.of_nat n ∧ (n ≤ state_space volumes)%nat ∧ (n ≤ m)%nat
}.

Lemma abort_post_mono k m m' : (m ≤ m')%nat → abort_post k m → abort_post k m'.
Proof.
  intros Hm [Hgoal Hleast (n & ? & ? & ?)]. constructor; [done..|].
  exists n. split_and!; [done..|lia].
Qed.

Lemma in_bounds_zero x : volumes = empty → in_bounds volumes x → x = empty.
Proof.
  intros ->. destruct x as [a b c]. unfold in_bounds, empty. simpl.
  intros (?&?&?). f_equal; lia.
Qed.

(** The state that holds the target is recorded; [show] is called next. *)
Lemma hit_record k p n0 ptr s x q y :
  round_inv k p n0 ptr s → no_goal s → (p ≤ ptr < n0)%nat →
  m_history s !! ptr = Some (x, q) →
  successor volumes x y → y ∉ m_visited s →
  contains y target = true →
  match show (record y (Z.of_nat ptr) (visit y s)) target (Z.of_nat (S k)) with
  | Some out => hit_post k (record y (Z.of_nat ptr) (visit y s)) out
  | None => abort_post k (S (length (m_history s)))
  end.
Proof.
  intros Hinv Hgoal Hptr Hx Hsucc Hfresh Hcont.
  pose proof (round_inv_record _ _ _ _ _ _ _ _ Hinv Hptr Hx Hsucc Hfresh) as Hinv'.
  set (s' := record y (Z.of_nat ptr) (visit y s)) in *.
  assert (Hlen : length (m_history s') = S (length (m_history s))).
  { unfold s', record. cbn [m_history]. rewrite length_app. simpl. lia. }
  assert (Hlast : m_history s' !! length (m_history s)
                  = Some (y, to_int (Z.of_nat ptr))).
  { unfold s', record, visit. cbn [m_history]. by apply list_lookup_middle. }
  destruct (r_new _ _ _ _ _ Hinv' _ _ _ (proj2 (proj2 (r_range _ _ _ _ _ Hinv))) Hlast)
    as [Hav Hroot].
  assert (Hleast : ∀ d z, avoiding volumes d z → contains z target = true → (S k ≤ d)%nat).
  { intros d z Hz Hcz. destruct (decide (S k ≤ d)%nat) as [|Hd]; [done|]. exfalso.
    destruct (r_complete _ _ _ _ _ Hinv d z Hz) as (i & q' & _ & Hi); [lia|].
    assert (contains z target = false) as Hf; [|congruence].
    apply Hgoal, elem_of_states. eauto. }
  destruct (show s' target (Z.of_nat (S k))) as [out|] eqn:Hshow.
  - destruct (show_rows s' target (Z.of_nat (S k)) out) as (rows & -> & Hrows);
      [lia|done|].
    constructor.
    + apply Hinv'.
    + exists y. split; [|done].
      unfold s', record, visit. cbn [m_history]. rewrite states_record. apply last_snoc.
    + done.
    + exists rows. split; [done|]. intros r Hr. split; [by apply Hrows|].
      apply Hrows, elem_of_states in Hr as (i & q' & Hi).
      destruct i as [|i].
      * destruct (inv_root _ (r_base _ _ _ _ _ Hinv')) as [h Hh].
        rewrite Hh in Hi. simpl in Hi. simplify_eq.
        intros Heq. apply Hfresh. apply (inv_visited _ (r_base _ _ _ _ _ Hinv)). left.
        apply in_bounds_zero; [done|].
        eapply successor_in_bounds; [done| |done].
        apply (inv_bounds _ (r_base _ _ _ _ _ Hinv)), elem_of_states. eauto.
      * eapply (inv_full _ (r_base _ _ _ _ _ Hinv')); [|done]. lia.
    + pose proof (r_rounds _ _ _ _ _ Hinv). pose proof (r_range _ _ _ _ _ Hinv). lia.
  - constructor; [by exists y|done|].
    exists (length (m_history s')). split_and!.
    + destruct (decide (Z.of_nat (length (m_history s')) ≤ INT_MAX)) as [Hsmall|]; [|lia].
      exfalso. destruct (show_ok s' target k) as [out Hout].
      * intros Hnil. rewrite Hnil in Hlen. done.
      * lia.
      * rewrite Hlen. replace (S (length (m_history s)) - 1)%nat
          with (length (m_history s)) by lia.
        apply rooted_walk_ok; [lia|done].
      * congruence.
    + apply base_inv_length, Hinv'.
    + lia.
Qed.

(** The range-[for] over the successors of the frontier entry [ptr]. *)
Lemma scan_spec k p n0 ptr x q new_states : ∀ s,
  round_inv k p n0 ptr s → no_goal s → (p ≤ ptr < n0)%nat →
  m_history s !! ptr = Some (x, q) →
  (∀ y, y ∈ new_states → successor volumes x y) →
  match scan_new_states target (Z.of_nat (S k)) ptr new_states s with
  | Miss s' =>
      round_inv k p n0 ptr s' ∧ no_goal s' ∧
      m_history s' !! ptr = Some (x, q) ∧
      (∀ y, y ∈ m_visited s → y ∈ m_visited s') ∧
      (∀ y, y ∈ new_states → y ∈ m_visited s') ∧
      (length (m_history s') ≤ length (m_history s) + length new_states)%nat
  | Hit ret out s' => ret = Z.of_nat (S k) ∧ hit_post k s' out
  | Throw => abort_post k (length (m_history s) + length new_states)
  end.
Proof.
  induction new_states as [|y rest IH]; intros s Hinv Hgoal Hptr Hx Hsucc.
  - simpl. split_and!; try done; [|lia]. intros y Hy. by apply elem_of_nil in Hy.
  - cbn [scan_new_states]. destruct (decide (y ∈ m_visited s)) as [Hin|Hfresh].
    + specialize (IH s Hinv Hgoal Hptr Hx).
      destruct (scan_new_states target (Z.of_nat (S k)) ptr rest s) as [ret out s'|s'|].
      * apply IH. intros; apply Hsucc; by right.
      * destruct IH as (?&?&?&Hmono&Hrest&Hlen); [intros; apply Hsucc; by right|].
        split; [done|]. split; [done|]. split; [done|]. split; [done|]. split.
        -- intros z [->|Hz]%elem_of_cons; [by apply Hmono|by apply Hrest].
        -- simpl. lia.
      * eapply abort_post_mono; [|apply IH; intros; apply Hsucc; by right].
        simpl. lia.
    + assert (Hsy : successor volumes x y) by (apply Hsucc; by left).
      destruct (contains y target) eqn:Hcont.
      * pose proof (hit_record _ _ _ _ _ _ _ _ Hinv Hgoal Hptr Hx Hsy Hfresh Hcont) as Hhit.
        destruct (show (record y (Z.of_nat ptr) (visit y s)) target (Z.of_nat (S k)))
          as [out|]; [done|].
        eapply abort_post_mono; [|done]. simpl. lia.
      * pose proof (round_inv_record _ _ _ _ _ _ _ _ Hinv Hptr Hx Hsy Hfresh) as Hinv'.
        set (s1 := record y (Z.of_nat ptr) (visit y s)) in *.
        assert (Hlen1 : length (m_history s1) = S (length (m_history s))).
        { unfold s1, record. cbn [m_history]. rewrite length_app. simpl. lia. }
        assert (Hgoal' : no_goal s1).
        { intros z. unfold s1, record, visit. cbn [m_history].
          rewrite states_record, elem_of_app, list_elem_of_singleton.
          intros [Hz| ->]; [by apply Hgoal|done]. }
        assert (Hx' : m_history s1 !! ptr = Some (x, q)).
        { unfold s1, record, visit. cbn [m_history]. by apply lookup_app_l_Some. }
        assert (Hmono1 : ∀ z, z ∈ m_visited s → z ∈ m_visited s1).
        { intros z Hz. unfold s1, record, visit. cbn [m_visited].
          apply elem_of_union. by right. }
        assert (Hy1 : y ∈ m_visited s1).
        { unfold s1, record, visit. cbn [m_visited].
          apply elem_of_union. left. by apply elem_of_singleton. }
        specialize (IH s1 Hinv' Hgoal' Hptr Hx').
        destruct (scan_new_states target (Z.of_nat (S k)) ptr rest s1) as [ret out s'|s'|].
        -- apply IH. intros; apply Hsucc; by right.
        -- destruct IH as (?&?&?&Hmono&Hrest&Hlen); [intros; apply Hsucc; by right|].
           split; [done|]. split; [done|]. split; [done|]. split; [|split].
           ++ intros z Hz. by apply Hmono, Hmono1.
           ++ intros z [->|Hz]%elem_of_cons; [by apply Hmono|by apply Hrest].
           ++ simpl. lia.
        -- eapply abort_post_mono; [|apply IH; intros; apply Hsucc; by right].
           rewrite Hlen1. simpl. lia.
Qed.


(** The loop over the frontier, from [ptr] on. *)
Lemma expand_spec k p n0 count : ∀ ptr s calls,
  round_inv k p n0 ptr s → no_goal s → (ptr + count = n0)%nat →
  match expand_frontier target (Z.of_nat (S k)) ptr count s calls with
  | (Miss s', _) => round_inv k p n0 n0 s' ∧ no_goal s'
  | (Hit ret out s', _) => ret = Z.of_nat (S k) ∧ hit_post k s' out
  | (Throw, _) => abort_post k (length (m_history s) + 9 * count)
  end.
Proof.
  induction count as [|count IH]; intros ptr s calls Hinv Hgoal Hcount.
  - simpl. assert (ptr = n0) as -> by lia. done.
  - cbn [expand_frontier].
    pose proof (r_range _ _ _ _ _ Hinv) as Hrange.
    destruct (lookup_lt_is_Some_2 (m_history s) ptr) as [[x q] Hx]; [lia|].
    rewrite Hx. rewrite (inv_volumes _ (r_base _ _ _ _ _ Hinv)).
    destruct (next_states_total x volumes) as [new_states Hnext]. rewrite Hnext.
    pose proof (next_states_length _ _ _ Hnext) as Hnine.
    pose proof (scan_spec k p n0 ptr x q new_states s Hinv Hgoal) as Hscan.
    destruct (scan_new_states target (Z.of_nat (S k)) ptr new_states s) as [ret out s'|s'|].
    + apply Hscan; [lia|done|]. intros y Hy. by exists new_states.
    + destruct Hscan as (Hinv' & Hgoal' & Hx' & Hmono & Hall & Hlen); [lia|done| |].
      { intros y Hy. by exists new_states. }
      assert (round_inv k p n0 (S ptr) s') as Hnext'.
      { destruct Hinv' as [Hbase' Hrange' Hfront' Hnew' Hclosed' Hcompl' Hrounds' Hfirst'].
        constructor; try done; [lia|].
        intros i z q' z' Hi Hz Hsucc Hne.
        destruct (decide (i = ptr)) as [->|Hneq]; [|eapply Hclosed'; [|done..]; lia].
        rewrite Hx' in Hz. simplify_eq.
        destruct Hsucc as (l & Hl & Hin). rewrite Hnext in Hl. simplify_eq.
        apply Hall, (inv_visited _ Hbase') in Hin as [->|[->|Hin]]; [|done|done].
        by apply base_inv_empty_in. }
      specialize (IH (S ptr) s' (S calls) Hnext' Hgoal' ltac:(lia)).
      destruct (expand_frontier target (Z.of_nat (S k)) (S ptr) count s' (S calls))
        as [[ret out s''|s''|] calls']; [done..|].
      eapply abort_post_mono; [|done]. lia.
    + eapply abort_post_mono; [|apply Hscan; [lia|done|]].
      * lia.
      * intros y Hy. by exists new_states.
Qed.


(** The end of a round: the entries it recorded are the next frontier. *)
Lemma round_inv_next k p n0 s :
  (p < n0)%nat →
  round_inv k p n0 n0 s → round_inv (S k) n0 (length (m_history s)) n0 s.
Proof.
  intros Hp [Hbase Hrange Hfront Hnew Hclosed Hcompl Hrounds Hfirst].
  constructor; try done.
  - lia.
  - intros i x q Hi Hx. apply (Hnew i x q); [lia|done].
  - intros i x q Hi Hx. apply lookup_lt_Some in Hx. lia.
  - intros d y Hav Hd. destruct (decide (d ≤ k)%nat) as [Hle|Hgt].
    + destruct (Hcompl d y Hav Hle) as (i & q & Hi & Hy). exists i, q. split; [lia|done].
    + assert (d = S k) as -> by lia.
      inversion Hav as [|n x y' Hx Hsucc Hne]; subst.
      destruct (Hcompl k x Hx) as (i & q & Hi & Hxi); [lia|].
      pose proof (Hclosed i x q y Hi Hxi Hsucc Hne) as Hin.
      apply elem_of_states in Hin as (j & q' & Hj). exists j, q'. split; [|done].
      by apply lookup_lt_Some in Hj.
  - lia.
Qed.

(** When a round records nothing, every state that can be reached without
    producing the all-full state is in the history. *)
Lemma round_inv_closed k p s d y :
  round_inv k p (length (m_history s)) (length (m_history s)) s →
  avoiding volumes d y → y ∈ states (m_history s).
Proof.
  intros Hinv. induction 1 as [|n x y Hx IH Hsucc Hne].
  - by apply (base_inv_empty_in _ (r_base _ _ _ _ _ Hinv)).
  - apply elem_of_states in IH as (i & q & Hi).
    eapply (r_closed _ _ _ _ _ Hinv i x q); [|done..].
    by apply lookup_lt_Some in Hi.
Qed.


(** How a run from the head of the search loop may return: with -1, when
    every state that can be reached without producing the all-full state is
    recorded and none holds the target, or with the number of the round that
    found the target. *)
Definition final_post (ret : Z) (out : output) (s : Solver) : Prop :=
  base_inv s ∧
  ((ret = -1 ∧ out = Silent ∧
    (∀ d y, avoiding volumes d y → y ∈ states (m_history s)) ∧
    ∀ d y, avoiding volumes d y → contains y target = false) ∨
   (∃ k, ret = Z.of_nat (S k) ∧ hit_post k s out)).

(** How it may end in an exception: [show] threw in some round; in the
    first round the history has at most 10 entries. *)
Definition aborted_post : Prop :=
  ∃ k m, abort_post k m ∧ (k = 0%nat → (m ≤ 10)%nat).

(** The [while] loop, from the head of round [k + 1]. *)
Lemma bfs_loop_spec fuel : ∀ k p s calls,
  round_inv k p (length (m_history s)) p s → no_goal s →
  match bfs_loop fuel target (Z.of_nat k) p s calls with
  | Returned ret out s' _ => final_post ret out s'
  | Aborted => aborted_post
  | OutOfFuel s' => base_inv s' ∧ (p + fuel < state_space volumes)%nat
  end.
Proof.
  induction fuel as [|fuel IH]; intros k p s calls Hinv Hgoal.
  - simpl. case_decide as Hp.
    + split; [apply Hinv|]. left. split_and!; [done..| |].
      * intros d y Hy. eapply round_inv_closed; [|done]. by rewrite Hp in Hinv.
      * intros d y Hy. apply Hgoal. eapply round_inv_closed; [|done].
        by rewrite Hp in Hinv.
    + split; [apply Hinv|].
      pose proof (r_range _ _ _ _ _ Hinv).
      pose proof (base_inv_length _ (r_base _ _ _ _ _ Hinv)). lia.
  - cbn [bfs_loop]. case_decide as Hp.
    + split; [apply Hinv|]. left. split_and!; [done..| |].
      * intros d y Hy. eapply round_inv_closed; [|done]. by rewrite Hp in Hinv.
      * intros d y Hy. apply Hgoal. eapply round_inv_closed; [|done].
        by rewrite Hp in Hinv.
    + cbn zeta. replace (Z.of_nat k + 1) with (Z.of_nat (S k)) by lia.
      pose proof (r_range _ _ _ _ _ Hinv) as Hrange.
      pose proof (expand_spec k p (length (m_history s))
                    (length (m_history s) - p) p s calls Hinv Hgoal) as Hexp.
      destruct (expand_frontier target (Z.of_nat (S k)) p
                  (length (m_history s) - p) s calls) as [[ret out s'|s'|] calls'].
      * destruct Hexp as [-> Hpost]; [lia|]. split; [apply Hpost|]. right. eauto.
      * destruct Hexp as [Hinv' Hgoal']; [lia|].
        assert (p < length (m_history s))%nat as Hlt by lia.
        specialize (IH (S k) (length (m_history s)) s' calls'
                      (round_inv_next _ _ _ _ Hlt Hinv') Hgoal').
        destruct (bfs_loop fuel target (Z.of_nat (S k)) (length (m_history s)) s' calls');
          [done..|].
        destruct IH as [? ?]. split; [done|lia].
      * exists k, (length (m_history s) + 9 * (length (m_history s) - p))%nat.
        split; [apply Hexp; lia|].
        intros Hk. destruct (r_first _ _ _ _ _ Hinv Hk) as [-> ->]. lia.
Qed.


(** The solver as [solve_water] sets it up before the loop. *)
Definition start (s : Solver) : Solver :=
  record empty INVALID_IDX (visit (m_volumes (visit empty (init s))) (visit empty (init s))).

Lemma start_inv s :
  m_volumes s = volumes →
  round_inv 0 0 (length (m_history (start s))) 0 (start s) ∧ no_goal (start s).
Proof.
  intros Hvol. unfold start, record, visit, init. cbn [m_history m_visited m_volumes].
  rewrite Hvol. change (to_int INVALID_IDX) with INVALID_IDX. split.
  - constructor; cbn [m_history m_visited m_volumes].
    + constructor; cbn [m_history m_visited m_volumes].
      * done.
      * by exists [].
      * intros x. rewrite !elem_of_union, !elem_of_singleton.
        unfold states. simpl. rewrite list_elem_of_singleton.
        split; [|intros [?|[?|?]]; auto].
        intros [?|[?|Hx]]; auto. by apply not_elem_of_empty in Hx.
      * unfold states. simpl. apply NoDup_singleton.
      * unfold states. simpl. intros x ->%list_elem_of_singleton.
        by apply in_bounds_empty.
      * intros [|i] x q Hi Hx; [lia|done].
      * intros [|i] x q Hx; [|done]. simpl in Hx. simplify_eq. by left.
    + simpl. lia.
    + intros i x q Hi Hx. simpl in Hi. assert (i = 0%nat) as -> by lia.
      simpl in Hx. simplify_eq. split; [constructor|by apply (rooted_first _ empty)].
    + intros i x q Hi Hx. apply lookup_lt_Some in Hx. simpl in *. lia.
    + intros i x q x' Hi. lia.
    + intros d x Hav Hd. assert (d = 0%nat) as -> by lia.
      inversion Hav; subst. exists 0%nat, INVALID_IDX. split; [simpl; lia|done].
    + done.
    + done.
  - intros x. unfold states. simpl. intros ->%list_elem_of_singleton.
    by apply contains_empty.
Qed.

(** [solve_water] on a nonzero target. *)
Lemma solve_water_spec fuel s :
  m_volumes s = volumes →
  match solve_water fuel s target with
  | Returned ret out s' _ => final_post ret out s'
  | Aborted => aborted_post
  | OutOfFuel s' => base_inv s' ∧ (fuel < state_space volumes)%nat
  end.
Proof.
  intros Hvol. unfold solve_water. rewrite decide_False by done. cbn zeta.
  destruct (start_inv s Hvol) as [Hinv Hgoal].
  apply (bfs_loop_spec fuel 0 0 (start s) 0 Hinv Hgoal).
Qed.

(** With fuel for as many rounds as there are states within the bounds,
    [solve_water] returns or [show] throws. *)
Lemma solve_water_ends fuel s :
  m_volumes s = volumes → (state_space volumes ≤ fuel)%nat →
  (∃ ret out s' calls,
     solve_water fuel s target = Returned ret out s' calls ∧ final_post ret out s') ∨
  (solve_water fuel s target = Aborted ∧ aborted_post).
Proof.
  intros Hvol Hfuel. pose proof (solve_water_spec fuel s Hvol) as Hspec.
  destruct (solve_water fuel s target) as [ret out s' calls| |s'].
  - left. by exists ret, out, s', calls.
  - by right.
  - destruct Hspec as [_ ?]. lia.
Qed.

(** When the positions of the history fit an [int], [show] does not throw. *)
Lemma aborted_post_large : aborted_post → INT_MAX < Z.of_nat (state_space volumes).
Proof. intros (k & m & [_ _ (n & ? & ? & _)] & _). lia. Qed.

End Search.

End SearchFacts.

(** ** The all-full state and shortest sequences *)

Module Shortest.

(** Two capacities are zero and the third is the target: the only state
    that holds the target is then the all-full one. *)
Definition single_capacity (volumes : VesselsState) (target : water) : Prop :=
  volumes = Vessels target 0 0 ∨ volumes = Vessels 0 target 0
  ∨ volumes = Vessels 0 0 target.

(** [d] is the length of a shortest sequence of operations from the all-empty
    state to a state that holds the target. *)
Definition shortest (volumes : VesselsState) (target : water) (d : nat) : Prop :=
  (∃ g, reachable volumes d g ∧ contains g target = true) ∧
  ∀ n g, reachable volumes n g → contains g target = true → (d ≤ n)%nat.

(** The only moves out of the all-full state drain a vessel. *)
Lemma move_from_full volumes m s' :
  move volumes volumes m s' →
  s' = volumes ∨ ∃ w c, at_ volumes w = Some c ∧ c ≠ 0 ∧ set_at volumes w 0 = Some s'.
Proof.
  intros Hm. inversion Hm as [v vf r Ha Hc Hr|v f r Ha Hf Hr|src dst f t vt r Hne Ht Hvt Hlt Hf Hpos Hr]; subst.
  - left. rewrite Ha in Hc. simplify_eq.
    destruct volumes, v as [|[|[|?]]]; simpl in *; by simplify_eq.
  - right. eauto.
  - rewrite Ht in Hvt. simplify_eq. lia.
Qed.

Lemma fill_successor volumes s v c s' :
  at_ s v = Some 0 → at_ volumes v = Some c → set_at s v c = Some s' →
  successor volumes s s'.
Proof. intros. apply successor_move. exists (Fill v). by eapply move_fill. Qed.

(** The all-full state with one vessel drained is two fills away from the
    all-empty state. *)
Lemma drained_avoiding volumes w c s' :
  at_ volumes w = Some c → c ≠ 0 → set_at volumes w 0 = Some s' →
  avoiding volumes 2 s'.
Proof.
  intros Hc Hne Hs'. destruct volumes as [a b d].
  destruct w as [|[|[|?]]]; simpl in *; simplify_eq.
  - apply (avoiding_step _ _ (Vessels 0 b 0)).
    + apply (avoiding_step _ _ empty); [constructor| |intros ?; simplify_eq].
      by apply (fill_successor _ _ 1%nat b).
    + by apply (fill_successor _ _ 2%nat d).
    + intros ?; simplify_eq.
  - apply (avoiding_step _ _ (Vessels a 0 0)).
    + apply (avoiding_step _ _ empty); [constructor| |intros ?; simplify_eq].
      by apply (fill_successor _ _ 0%nat a).
    + by apply (fill_successor _ _ 2%nat d).
    + intros ?; simplify_eq.
  - apply (avoiding_step _ _ (Vessels a 0 0)).
    + apply (avoiding_step _ _ empty); [constructor| |intros ?; simplify_eq].
      by apply (fill_successor _ _ 0%nat a).
    + by apply (fill_successor _ _ 1%nat b).
    + intros ?; simplify_eq.
Qed.

(** A state other than the all-full one is reached no later when the
    all-full state is never produced. *)
Lemma reachable_avoiding volumes n s :
  reachable volumes n s → s ≠ volumes →
  ∃ m, (m ≤ n)%nat ∧ avoiding volumes m s.
Proof.
  induction 1 as [|n s s' Hs IH Hsucc]; intros Hne.
  - exists 0%nat. split; [done|constructor].
  - destruct (decide (s = volumes)) as [->|Hsne].
    + apply successor_move in Hsucc as [m Hm].
      apply move_from_full in Hm as [?|(w & c & Hc & Hc0 & Hset)]; [done|].
      exists 2%nat. split; [|by eapply drained_avoiding].
      destruct n as [|n]; [|lia]. inversion Hs; subst.
      destruct w as [|[|[|?]]]; simpl in Hc; by simplify_eq.
    + destruct (IH Hsne) as (m & Hm & Hav). exists (S m). split; [lia|].
      by eapply avoiding_step.
Qed.

(** Unless the target is the single nonzero capacity, a state that holds it
    is reached no later when the all-full state is never produced. *)
Lemma goal_avoiding volumes target n g :
  target ≠ 0 → ¬ single_capacity volumes target →
  reachable volumes n g → contains g target = true →
  ∃ m g', (m ≤ n)%nat ∧ avoiding volumes m g' ∧ contains g' target = true.
Proof.
  intros Ht Hsingle Hg Hcont.
  destruct (decide (g = volumes)) as [->|Hne].
  2:{ destruct (reachable_avoiding _ _ _ Hg Hne) as (m & ? & ?). eauto. }
  assert (1 ≤ n)%nat as Hn.
  { destruct n; [|lia]. inversion Hg; subst.
    by rewrite contains_empty in Hcont. }
  exists 1%nat.
  assert (∃ w g', at_ volumes w = Some target ∧ set_at empty w target = Some g'
                  ∧ g' ≠ volumes) as (w & g' & Hw & Hset & Hg').
  { apply contains_spec in Hcont. unfold single_capacity in Hsingle.
    destruct volumes as [a b c]. simpl in Hcont.
    destruct Hcont as [->|[->| ->]].
    - exists 0%nat. eexists. split; [done|]. split; [done|].
      intros Heq. simplify_eq. tauto.
    - exists 1%nat. eexists. split; [done|]. split; [done|].
      intros Heq. simplify_eq. tauto.
    - exists 2%nat. eexists. split; [done|]. split; [done|].
      intros Heq. simplify_eq. tauto. }
  exists g'. split; [done|]. split.
  - apply (avoiding_step _ _ empty); [constructor| |done].
    apply (fill_successor _ _ w target); [|done..].
    destruct w as [|[|[|?]]]; simpl in *; by simplify_eq.
  - apply contains_spec.
    destruct w as [|[|[|?]]]; simpl in *; simplify_eq; simpl; auto.
Qed.

End Shortest.
Export Shortest.

(** ** Facts about [gcd] and the hash *)

Module UtilsFacts.

Lemma gcd_rec_correct fuel : ∀ x y,
  0 ≤ x → is_water y → (Z.to_nat y < fuel)%nat →
  gcd_rec fuel x y = Z.gcd x y.
Proof.
  unfold is_water.
  induction fuel as [|fuel IH]; intros x y Hx Hy Hfuel; [lia|].
  cbn [gcd_rec]. case_decide as Hy0.
  - subst. rewrite Z.gcd_0_r. lia.
  - rewrite Z.rem_mod_nonneg by lia.
    pose proof (Z.mod_pos_bound x y ltac:(lia)) as Hmod.
    rewrite wrap16_small by (unfold is_water; lia).
    rewrite IH by (try unfold is_water; lia).
    rewrite Z.gcd_comm, Z.gcd_mod by lia. apply Z.gcd_comm.
Qed.

Lemma gcd2_correct x y : 0 ≤ x → is_water y → gcd2 x y = Z.gcd x y.
Proof. intros. apply gcd_rec_correct; [done..|lia]. Qed.

Lemma gcd3_correct x y z :
  is_water x → is_water y → is_water z → gcd3 x y z = Z.gcd (Z.gcd x y) z.
Proof.
  intros Hx Hy Hz. unfold gcd3.
  rewrite (gcd2_correct x y) by (unfold is_water in *; lia).
  apply gcd2_correct; [apply Z.gcd_nonneg|done].
Qed.

Lemma gcd3_divides volumes :
  valid_volumes volumes →
  levels_divide (gcd3 (v0 volumes) (v1 volumes) (v2 volumes)) volumes.
Proof.
  intros (H0 & H1 & H2). rewrite gcd3_correct by done. unfold levels_divide.
  split_and!.
  - etrans; [apply Z.gcd_divide_l|apply Z.gcd_divide_l].
  - etrans; [apply Z.gcd_divide_l|apply Z.gcd_divide_r].
  - apply Z.gcd_divide_r.
Qed.

(** Every reachable level is a multiple of a common divisor of the
    capacities. *)
Lemma reachable_levels_divide g volumes n s :
  valid_volumes volumes → levels_divide g volumes →
  reachable volumes n s → levels_divide g s.
Proof.
  intros Hv Hg. induction 1 as [|n s s' Hs IH Hsucc].
  - unfold levels_divide. simpl. pose proof (Z.divide_0_r g). tauto.
  - apply successor_move in Hsucc as [m Hm].
    eapply move_levels_divide; [done| |done..].
    by eapply reachable_in_bounds.
Qed.

Lemma levels_divide_contains g s x :
  levels_divide g s → contains s x = true → (g | x).
Proof.
  intros (H0 & H1 & H2) Hc. apply contains_spec in Hc as [<-|[<-|<-]]; done.
Qed.

(** Without the reductions modulo 2^64, which never apply to [water] levels. *)
Lemma hash_value s :
  valid_volumes s →
  hash s = (v0 s * type_max + v1 s) * type_max + v2 s.
Proof.
  destruct s as [a b c]. unfold valid_volumes, is_water, hash, wrap64, type_max.
  simpl. intros (Ha & Hb & Hc).
  rewrite (Z.mod_small (a * 65535)) by nia.
  rewrite (Z.mod_small (a * 65535 + b)) by nia.
  rewrite (Z.mod_small ((a * 65535 + b) * 65535)) by nia.
  rewrite (Z.mod_small ((a * 65535 + b) * 65535 + c)) by nia.
  done.
Qed.

End UtilsFacts.
Export UtilsFacts.

Export SearchFacts.

(** ** The properties of the specification *)

Module Spec.

(** With fuel for as many rounds as there are states within the bounds, and
    no more than [INT_MAX] such states, [solve_water] returns. *)
Lemma solve_water_returns volumes target s fuel :
  valid_volumes volumes → target ≠ 0 → m_volumes s = volumes →
  (state_space volumes ≤ fuel)%nat →
  Z.of_nat (state_space volumes) ≤ INT_MAX →
  ∃ ret out s' calls,
    solve_water fuel s target = Returned ret out s' calls ∧
    final_post volumes target ret out s'.
Proof.
  intros Hv Ht Hvol Hfuel Hsmall.
  destruct (solve_water_ends volumes target Hv Ht fuel s Hvol Hfuel)
    as [?|[_ Habort]]; [done|].
  apply aborted_post_large in Habort. lia.
Qed.

(** With that fuel [solve_water] returns whenever no state that can be
    reached holds the target: [show] is not called. *)
Lemma solve_water_exhausts volumes target s fuel :
  valid_volumes volumes → target ≠ 0 → m_volumes s = volumes →
  (state_space volumes ≤ fuel)%nat →
  (∀ d y, avoiding volumes d y → contains y target = false) →
  ∃ s' calls,
    solve_water fuel s target = Returned (-1) Silent s' calls ∧
    final_post volumes target (-1) Silent s'.
Proof.
  intros Hv Ht Hvol Hfuel Hnone.
  destruct (solve_water_ends volumes target Hv Ht fuel s Hvol Hfuel)
    as [(ret & out & s' & calls & Hrun & Hpost)|[_ (k & m & [(g & Hg & Hc) _ _] & _)]].
  - destruct Hpost as [Hbase [(-> & -> & Hall)|(k & -> & Hhit)]].
    + exists s', calls. split; [done|]. split; [done|]. by left.
    + destruct (hit_goal _ _ _ _ _ Hhit) as (g & _ & Hg & Hc).
      rewrite (Hnone _ _ Hg) in Hc. done.
  - rewrite (Hnone _ _ Hg) in Hc. done.
Qed.

(** C1, as amended.  A nonzero target, and capacities of which the target is
    not the only nonzero one: with enough fuel, and no more than [INT_MAX]
    states within the bounds, [solve_water] returns; a count it returns that
    is not negative is the length of a shortest sequence of Fill, Drain and
    Pour operations from the all-empty state to a state that holds the
    target, and it does not return -1 when such a sequence exists. *)
Theorem solve_water_shortest volumes target s :
  valid_volumes volumes → target ≠ 0 → m_volumes s = volumes →
  ¬ single_capacity volumes target →
  (∀ fuel, (state_space volumes ≤ fuel)%nat →
     Z.of_nat (state_space volumes) ≤ INT_MAX →
     ∃ ret out s' calls, solve_water fuel s target = Returned ret out s' calls) ∧
  (∀ fuel ret out s' calls,
     solve_water fuel s target = Returned ret out s' calls →
     (0 ≤ ret → shortest volumes target (Z.to_nat ret)) ∧
     ((∃ n g, reachable volumes n g ∧ contains g target = true) → ret ≠ -1)).
Proof.
  intros Hv Ht Hvol Hsingle. split.
  - intros fuel Hfuel Hsmall.
    destruct (solve_water_returns volumes target s fuel) as (ret & out & s' & calls & Hrun & _);
      eauto.
  - intros fuel ret out s' calls Hrun.
    pose proof (solve_water_spec volumes target Hv Ht fuel s Hvol) as Hspec.
    rewrite Hrun in Hspec.
    destruct Hspec as [_ [(-> & _ & _ & Hnone)|(k & -> & Hpost)]].
    + split; [lia|]. intros (n & g & Hg & Hcont).
      destruct (goal_avoiding volumes target n g Ht Hsingle Hg Hcont) as (m & g' & _ & Hav & Hc').
      rewrite (Hnone m g' Hav) in Hc'. done.
    + split; [|lia]. intros _. rewrite Nat2Z.id.
      destruct (hit_goal _ _ _ _ _ Hpost) as (g & _ & Hav & Hcont).
      split.
      * exists g. split; [by apply avoiding_reachable|done].
      * intros n g' Hg' Hcont'.
        destruct (goal_avoiding volumes target n g' Ht Hsingle Hg' Hcont')
          as (m & g'' & Hm & Hav' & Hc'').
        pose proof (hit_least _ _ _ _ _ Hpost m g'' Hav' Hc''). lia.
Qed.

Lemma solve_water_shortest_witness :
  shortest (Vessels 3 5 8) 4 6.
Proof.
  destruct (solve_water 6 (new_solver (Vessels 3 5 8)) 4) as [ret out s' calls| |s'] eqn:Hrun;
    [|vm_compute in Hrun; discriminate..].
  assert (ret = 6) as -> by (vm_compute in Hrun; congruence).
  apply (solve_water_shortest (Vessels 3 5 8) 4 (new_solver (Vessels 3 5 8)))
    with (fuel := 6%nat) (ret := 6) (out := out) (s' := s') (calls := calls).
  - unfold valid_volumes, is_water. simpl. lia.
  - lia.
  - reflexivity.
  - unfold single_capacity. intros [H|[H|H]]; discriminate H.
  - exact Hrun.
  - lia.
Defined.

(** C1 fails as stated: with the capacities 0, 0 and 5 one Fill reaches a
    state that holds 5 litres, and [solve_water] returns -1. *)
Lemma solve_water_single_capacity_unsolved :
  valid_volumes (Vessels 0 0 5) ∧
  reachable (Vessels 0 0 5) 1 (Vessels 0 0 5) ∧
  contains (Vessels 0 0 5) 5 = true ∧
  ∀ fuel, returned (solve_water (S fuel) (new_solver (Vessels 0 0 5)) 5) = Some (-1).
Proof.
  split_and!.
  - unfold valid_volumes, is_water. simpl. lia.
  - apply (reachable_step _ _ empty); [constructor|].
    by apply (fill_successor _ _ 2%nat 5).
  - reflexivity.
  - intros [|fuel]; vm_compute; reflexivity.
Qed.


(** C2.  When the remainder of a nonzero target by the GCD of the three
    capacities is not zero, [solve_water] returns -1.  (The remainder by a
    zero GCD is read as the target itself.) *)
Theorem solve_water_gcd_unsolvable volumes target s fuel :
  valid_volumes volumes → target ≠ 0 → m_volumes s = volumes →
  target `rem` gcd3 (v0 volumes) (v1 volumes) (v2 volumes) ≠ 0 →
  (state_space volumes ≤ fuel)%nat →
  ∃ s' calls, solve_water fuel s target = Returned (-1) Silent s' calls.
Proof.
  intros Hv Ht Hvol Hrem Hfuel.
  destruct (solve_water_exhausts volumes target s fuel Hv Ht Hvol Hfuel)
    as (s' & calls & Hrun & _); [|by exists s', calls].
  intros n g Hav. apply not_true_is_false. intros Hcont.
  set (d := gcd3 (v0 volumes) (v1 volumes) (v2 volumes)) in *.
  assert (d | target) as Hdiv.
  { eapply levels_divide_contains; [|done].
    eapply reachable_levels_divide; [done|by apply gcd3_divides|].
    by eapply avoiding_reachable. }
  destruct (decide (d = 0)) as [Hd|Hd].
  - rewrite Hd in Hdiv. by apply Z.divide_0_l in Hdiv.
  - by apply Z.rem_divide in Hdiv.
Qed.

Lemma solve_water_gcd_unsolvable_witness :
  ∃ s' calls,
    solve_water 105 (new_solver (Vessels 2 4 6)) 5 = Returned (-1) Silent s' calls.
Proof.
  apply (solve_water_gcd_unsolvable (Vessels 2 4 6) 5 (new_solver (Vessels 2 4 6)) 105).
  - unfold valid_volumes, is_water. simpl. lia.
  - lia.
  - reflexivity.
  - vm_compute. discriminate.
  - vm_compute. lia.
Defined.

(** C3.  With capacities that are [water] values, [next_states] maps a state
    whose levels lie between 0 and the capacities to such states, and so every
    state reachable from the all-empty one has each level between 0 and the
    capacity of its vessel. *)
Theorem next_states_within_bounds volumes :
  valid_volumes volumes →
  (∀ s l s', in_bounds volumes s → next_states s volumes = Some l → s' ∈ l →
             in_bounds volumes s') ∧
  (∀ n s i x c, reachable volumes n s →
                at_ s i = Some x → at_ volumes i = Some c → 0 ≤ x ≤ c).
Proof.
  intros Hv. split.
  - intros s l s' Hb Hl Hin. eapply successor_in_bounds; [done..|]. by exists l.
  - intros n s i x c Hs Hx Hc.
    pose proof (reachable_in_bounds volumes n s Hv Hs) as (H0 & H1 & H2).
    destruct i as [|[|[|?]]]; simpl in *; simplify_eq; done.
Qed.

Lemma next_states_within_bounds_witness :
  in_bounds (Vessels 3 5 8) (Vessels 3 2 0).
Proof.
  destruct (next_states_within_bounds (Vessels 3 5 8)) as [Hstep _].
  - unfold valid_volumes, is_water. simpl. lia.
  - apply (Hstep (Vessels 0 5 0) [Vessels 3 5 0; Vessels 0 0 0; Vessels 3 2 0;
                                  Vessels 0 0 5; Vessels 0 5 8]).
    + unfold in_bounds. simpl. lia.
    + vm_compute. reflexivity.
    + apply list_elem_of_In. simpl. tauto.
Defined.

(** C4.  On a state within the bounds, for distinct vessels [src] and [dst]
    with water in [src] and room in [dst]: when the level of [src] is at most
    the free room of [dst], [transfer] empties [src] into [dst]; otherwise it
    fills [dst] to its capacity and takes the free room away from [src]; the
    third vessel keeps its level. *)
Theorem transfer_cases volumes s src dst a b c :
  valid_volumes volumes → in_bounds volumes s →
  src ≠ dst →
  at_ s src = Some a → at_ s dst = Some b → at_ volumes dst = Some c →
  a > 0 → b < c →
  ∃ r, transfer s src dst volumes = Some r ∧
       (if decide (a ≤ c - b)
        then at_ r src = Some 0 ∧ at_ r dst = Some (b + a)
        else at_ r dst = Some c ∧ at_ r src = Some (a - (c - b))) ∧
       ∀ k, k ≠ src → k ≠ dst → at_ r k = at_ s k.
Proof. intros. by apply transfer_spec. Qed.

Lemma transfer_cases_witness :
  ∃ r, transfer (Vessels 3 4 0) 0 1 (Vessels 3 5 8) = Some r ∧
       (at_ r 1%nat = Some 5 ∧ at_ r 0%nat = Some 2) ∧
       ∀ k, k ≠ 0%nat → k ≠ 1%nat → at_ r k = at_ (Vessels 3 4 0) k.
Proof.
  apply (transfer_cases (Vessels 3 5 8) (Vessels 3 4 0) 0 1 3 4 5).
  - unfold valid_volumes, is_water. simpl. lia.
  - unfold in_bounds. simpl. lia.
  - lia.
  - reflexivity.
  - reflexivity.
  - reflexivity.
  - lia.
  - lia.
Defined.

(** C5.  On a state within the bounds, every state [next_states] pushes comes
    from one move: a Pour leaves the sum of the levels unchanged, a Fill of
    [v] adds the capacity of [v] to it, a Drain of [v] takes the former level
    of [v] from it. *)
Theorem next_states_total_volume volumes s :
  valid_volumes volumes → in_bounds volumes s →
  ∃ moves, next_moves s volumes = Some moves ∧
           next_states s volumes = Some (moves.*2) ∧
           ∀ m s', (m, s') ∈ moves →
             match m with
             | Fill v => ∃ c, at_ volumes v = Some c ∧ total s' = total s + c
             | Drain v => ∃ f, at_ s v = Some f ∧ total s' = total s - f
             | Pour _ _ => total s' = total s
             end.
Proof.
  intros Hv Hb. destruct (next_moves_spec s volumes) as (moves & Hmoves & Hin).
  exists moves. split; [done|]. split.
  - unfold next_states. by rewrite Hmoves.
  - intros m s' Hm. apply Hin in Hm. by apply move_total.
Qed.

Lemma next_states_total_volume_witness :
  ∃ moves, next_moves (Vessels 3 4 0) (Vessels 3 5 8) = Some moves ∧
           next_states (Vessels 3 4 0) (Vessels 3 5 8) = Some (moves.*2) ∧
           ∀ m s', (m, s') ∈ moves →
             match m with
             | Fill v => ∃ c, at_ (Vessels 3 5 8) v = Some c ∧ total s' = 7 + c
             | Drain v => ∃ f, at_ (Vessels 3 4 0) v = Some f ∧ total s' = 7 - f
             | Pour _ _ => total s' = 7
             end.
Proof.
  apply (next_states_total_volume (Vessels 3 5 8) (Vessels 3 4 0)).
  - unfold valid_volumes, is_water. simpl. lia.
  - unfold in_bounds. simpl. lia.
Defined.

(** C6.  Whatever the capacities and the contents of the solver,
    [solve_water(0)] returns 0, not -1, after printing its one line; no round
    of the search runs (no fuel is needed), [next_states] is never called, and
    the history and the visited set are as they were. *)
Theorem solve_water_zero_target fuel s :
  solve_water fuel s 0 = Returned 0 AllEmptyMessage s 0 ∧
  returned (solve_water 0 s 0) ≠ Some (-1).
Proof. split; [done|]. simpl. discriminate. Qed.


(** C7.  On a nonzero target, [solve_water] enters its loop with the all-full
    state (the state equal to the capacities) in the visited set and the
    all-empty state as the only history entry.  However the run returns or
    wherever it is cut, the all-full state is still visited, no history entry
    after the first holds it, and it is not a row of the table [show]
    prints.  (The run ends in an exception only when there are more than
    [INT_MAX] states within the bounds.) *)
Theorem all_full_state_never_recorded volumes target s fuel :
  valid_volumes volumes → target ≠ 0 → m_volumes s = volumes →
  volumes ∈ m_visited (start s) ∧
  m_history (start s) = [(empty, INVALID_IDX)] ∧
  solve_water fuel s target = bfs_loop fuel target 0 0 (start s) 0 ∧
  match solve_water fuel s target with
  | Returned _ out s' _ =>
      volumes ∈ m_visited s' ∧
      (∀ i x q, (0 < i)%nat → m_history s' !! i = Some (x, q) → x ≠ volumes) ∧
      (∀ rows, out = Table rows → volumes ∉ rows)
  | OutOfFuel s' =>
      volumes ∈ m_visited s' ∧
      (∀ i x q, (0 < i)%nat → m_history s' !! i = Some (x, q) → x ≠ volumes)
  | Aborted => INT_MAX < Z.of_nat (state_space volumes)
  end.
Proof.
  intros Hv Ht Hvol. split_and!.
  - unfold start, record, visit, init. cbn [m_visited m_volumes]. rewrite Hvol.
    apply elem_of_union. left. by apply elem_of_singleton.
  - done.
  - unfold solve_water. by rewrite decide_False by done.
  - pose proof (solve_water_spec volumes target Hv Ht fuel s Hvol) as Hspec.
    destruct (solve_water fuel s target) as [ret out s' calls| |s'].
    + destruct Hspec as [Hbase Hcases]. split_and!.
      * apply (inv_visited _ _ Hbase). tauto.
      * apply (inv_full _ _ Hbase).
      * intros rows ->. destruct Hcases as [(_ & ? & _)|(k & _ & Hpost)]; [done|].
        destruct (hit_rows _ _ _ _ _ Hpost) as (rows' & ? & Hrows). simplify_eq.
        intros Hin. by destruct (Hrows _ Hin).
    + by eapply aborted_post_large.
    + destruct Hspec as [Hbase _]. split.
      * apply (inv_visited _ _ Hbase). tauto.
      * apply (inv_full _ _ Hbase).
Qed.

Lemma all_full_state_never_recorded_witness :
  match solve_water 2 (new_solver (Vessels 1 2 3)) 5 with
  | Returned _ out s' _ =>
      Vessels 1 2 3 ∈ m_visited s' ∧
      (∀ i x q, (0 < i)%nat → m_history s' !! i = Some (x, q) → x ≠ Vessels 1 2 3) ∧
      (∀ rows, out = Table rows → Vessels 1 2 3 ∉ rows)
  | OutOfFuel s' =>
      Vessels 1 2 3 ∈ m_visited s' ∧
      (∀ i x q, (0 < i)%nat → m_history s' !! i = Some (x, q) → x ≠ Vessels 1 2 3)
  | Aborted => INT_MAX < Z.of_nat (state_space (Vessels 1 2 3))
  end.
Proof.
  apply (all_full_state_never_recorded (Vessels 1 2 3) 5 (new_solver (Vessels 1 2 3)) 2).
  - unfold valid_volumes, is_water. simpl. lia.
  - lia.
  - reflexivity.
Defined.

(** The integers of a run.  After a search the count returned is at least
    -1 and below the size of the history, and the history has no more
    entries than there are states within the bounds.  Every entry after the
    first stores the position of an earlier entry, converted to [int]; with
    no more than [INT_MAX] states within the bounds the conversion changes
    nothing, and every stored index is at least 0 and below the position of
    its own entry. *)
Lemma solve_water_counters volumes target s fuel ret out s' calls :
  valid_volumes volumes → target ≠ 0 → m_volumes s = volumes →
  solve_water fuel s target = Returned ret out s' calls →
  -1 ≤ ret < Z.of_nat (length (m_history s')) ∧
  (length (m_history s') ≤ state_space volumes)%nat ∧
  (∀ i x q, m_history s' !! i = Some (x, q) →
     (i = 0%nat ∧ q = INVALID_IDX) ∨
     ∃ p, (p < i)%nat ∧ q = to_int (Z.of_nat p)) ∧
  (Z.of_nat (state_space volumes) ≤ INT_MAX →
   ∀ i x q, m_history s' !! i = Some (x, q) →
     (i = 0%nat ∧ q = INVALID_IDX) ∨ 0 ≤ q < Z.of_nat i).
Proof.
  intros Hv Ht Hvol Hrun.
  pose proof (solve_water_spec volumes target Hv Ht fuel s Hvol) as Hspec.
  rewrite Hrun in Hspec. destruct Hspec as [Hbase Hcases].
  pose proof (base_inv_length volumes _ Hbase) as Hlen.
  split_and!.
  - destruct Hcases as [(-> & _)|(k & -> & _)]; lia.
  - destruct Hcases as [(-> & _)|(k & -> & Hpost)].
    + destruct (inv_root _ _ Hbase) as [h ->]. simpl. lia.
    + pose proof (hit_steps _ _ _ _ _ Hpost). lia.
  - done.
  - apply (inv_pred _ _ Hbase).
  - intros Hsmall i x q Hi.
    destruct (inv_pred _ _ Hbase i x q Hi) as [?|(p & Hp & ->)]; [by left|].
    right. pose proof (lookup_lt_Some _ _ _ Hi).
    rewrite to_int_small by lia. lia.
Qed.

(** C8.  With capacities that are [water] values and fuel for as many
    rounds as there are states within the bounds (the product of the three
    capacities plus one), [solve_water] ends on every target: it returns an
    integer, after a search with the recorded states distinct, all of them
    visited and no more than that product; or [show] throws, which takes more
    than [INT_MAX] states within the bounds.  And [show] does throw on a
    history of more than 2^31 and at most 2^32 entries, where the [int] it
    starts from is negative: the search loop is left by an exception when it
    finds the target with 2^31 or more entries, and fewer than 2^32, already
    in the history. *)
Theorem solve_water_terminates volumes target s fuel :
  valid_volumes volumes → m_volumes s = volumes →
  (state_space volumes ≤ fuel)%nat →
  ((∃ ret out s' calls,
      solve_water fuel s target = Returned ret out s' calls ∧
      (target ≠ 0 →
       NoDup (states (m_history s')) ∧
       (∀ x, x ∈ states (m_history s') → x ∈ m_visited s') ∧
       (length (m_history s') ≤ state_space volumes)%nat)) ∨
   (solve_water fuel s target = Aborted ∧
    INT_MAX < Z.of_nat (state_space volumes))) ∧
  (∀ s0 steps,
     0 < steps →
     INT_MAX + 1 < Z.of_nat (length (m_history s0)) ≤ 4294967296 →
     show s0 target steps = None) ∧
  (∀ s0 step ptr new_state rest,
     0 < step →
     INT_MAX < Z.of_nat (length (m_history s0)) < 4294967296 →
     new_state ∉ m_visited s0 → contains new_state target = true →
     scan_new_states target step ptr (new_state :: rest) s0 = Throw).
Proof.
  intros Hv Hvol Hfuel. split; [|split; [intros s0 steps; apply show_throws|]].
  2:{ intros s0 step ptr new_state rest Hstep Hlen Hfresh Hcont.
      cbn [scan_new_states]. rewrite decide_False by done. rewrite Hcont.
      rewrite show_throws; [done..|].
      unfold record, visit. cbn [m_history]. rewrite length_app. simpl.
      unfold INT_MAX in *. lia. }
  destruct (decide (target = 0)) as [->|Ht].
  - left. exists 0, AllEmptyMessage, s, 0%nat. split; [done|]. intros ?. done.
  - destruct (solve_water_ends volumes target Hv Ht fuel s Hvol Hfuel)
      as [(ret & out & s' & calls & Hrun & Hbase & _)|[Hrun Habort]].
    + left. exists ret, out, s', calls. split; [done|]. intros _. split_and!.
      * apply (inv_nodup _ _ Hbase).
      * intros x Hx. apply (inv_visited _ _ Hbase). tauto.
      * by apply base_inv_length.
    + right. split; [done|]. by eapply aborted_post_large.
Qed.

Lemma solve_water_terminates_witness :
  ((∃ ret out s' calls,
      solve_water 24 (new_solver (Vessels 1 2 3)) 5 = Returned ret out s' calls ∧
      (5 ≠ 0 →
       NoDup (states (m_history s')) ∧
       (∀ x, x ∈ states (m_history s') → x ∈ m_visited s') ∧
       (length (m_history s') ≤ state_space (Vessels 1 2 3))%nat)) ∨
   (solve_water 24 (new_solver (Vessels 1 2 3)) 5 = Aborted ∧
    INT_MAX < Z.of_nat (state_space (Vessels 1 2 3)))) ∧
  (∀ s0 steps,
     0 < steps →
     INT_MAX + 1 < Z.of_nat (length (m_history s0)) ≤ 4294967296 →
     show s0 5 steps = None) ∧
  (∀ s0 step ptr new_state rest,
     0 < step →
     INT_MAX < Z.of_nat (length (m_history s0)) < 4294967296 →
     new_state ∉ m_visited s0 → contains new_state 5 = true →
     scan_new_states 5 step ptr (new_state :: rest) s0 = Throw).
Proof.
  apply (solve_water_terminates (Vessels 1 2 3) 5 (new_solver (Vessels 1 2 3)) 24).
  - unfold valid_volumes, is_water. simpl. lia.
  - reflexivity.
  - vm_compute. lia.
Defined.

(** C9, as amended.  The hash combines the three levels positionally with
    the base [type_max<water>()], 65535, the largest [water] value itself; no
    two states whose second and third levels are below 65535 have the same
    hash. *)
Theorem hash_base_type_max :
  (∀ s, valid_volumes s → hash s = (v0 s * 65535 + v1 s) * 65535 + v2 s) ∧
  (∀ s1 s2, valid_volumes s1 → valid_volumes s2 →
            v1 s1 < 65535 → v2 s1 < 65535 → v1 s2 < 65535 → v2 s2 < 65535 →
            hash s1 = hash s2 → s1 = s2).
Proof.
  split.
  - intros s Hs. by rewrite hash_value.
  - intros [a1 b1 c1] [a2 b2 c2] Hs1 Hs2. rewrite !hash_value by done.
    unfold valid_volumes, is_water, type_max in *. simpl in *.
    intros. f_equal; lia.
Qed.

Lemma hash_base_type_max_witness :
  hash (Vessels 3 5 8) = (3 * 65535 + 5) * 65535 + 8.
Proof.
  destruct hash_base_type_max as [Hvalue _].
  apply (Hvalue (Vessels 3 5 8)).
  unfold valid_volumes, is_water. simpl. lia.
Defined.

(** C9 fails as stated: the base is not 65536, and two states whose levels
    fit the measurement type have the same hash. *)
Lemma hash_not_base_65536 :
  valid_volumes (Vessels 0 1 0) ∧ valid_volumes (Vessels 0 0 65535) ∧
  hash (Vessels 0 1 0) = 65535 ∧
  (0 * 65536 + 1) * 65536 + 0 = 65536 ∧
  hash (Vessels 0 0 65535) = hash (Vessels 0 1 0) ∧
  bool_decide (Vessels 0 0 65535 = Vessels 0 1 0) = false.
Proof.
  unfold valid_volumes, is_water. simpl. split_and!; try lia; reflexivity.
Qed.

(** C10.  With the three capacities 0, [main] computes the GCD 0 and takes the
    remainder of the target by it, whatever the target: nothing guards the
    division by zero. *)
Theorem main_zero_capacities_divide_by_zero :
  gcd3 0 0 0 = 0 ∧
  ∀ fuel target, run fuel (Vessels 0 0 0) target = Undefined.
Proof. split; [reflexivity|]. intros fuel target. reflexivity. Qed.

End Spec.

(** ** The recording steps of a run *)

Module RunFacts.

(** One recording step of the search: a successor of a recorded state that is
    not visited yet is marked and appended with the index of that state. *)
Inductive records_step : Solver → Solver → Prop :=
  | records_step_intro s ptr x q y :
      m_history s !! ptr = Some (x, q) →
      successor (m_volumes s) x y →
      y ∉ m_visited s →
      records_step s (record y (Z.of_nat ptr) (visit y s)).

(** How a run from [s] may end at [s'] with the value [ret] and the output
    [out]: through recording steps, and when the target was found, with the
    output of [show] on the final history. *)
Definition run_post (target : water) (s : Solver) (ret : Z) (out : output)
    (s' : Solver) : Prop :=
  rtc records_step s s' ∧
  ((ret = -1 ∧ out = Silent) ∨ (0 < ret ∧ show s' target ret = Some out)).

Lemma scan_run target step ptr x q new_states : ∀ s,
  0 < step →
  m_history s !! ptr = Some (x, q) →
  (∀ y, y ∈ new_states → successor (m_volumes s) x y) →
  match scan_new_states target step ptr new_states s with
  | Miss s' => rtc records_step s s'
  | Hit ret out s' => rtc records_step s s' ∧ 0 < ret ∧ show s' target ret = Some out
  | Throw => True
  end.
Proof.
  induction new_states as [|y rest IH]; intros s Hstep Hx Hsucc; [simpl; apply rtc_refl|].
  cbn [scan_new_states]. case_decide as Hv.
  - apply IH; [done..|]. intros; apply Hsucc; by right.
  - assert (Hrec : records_step s (record y (Z.of_nat ptr) (visit y s))).
    { econstructor; [done| |done]. apply Hsucc. by left. }
    destruct (contains y target).
    + destruct (show _ target step) as [out|] eqn:Hshow; [|done].
      split; [by apply rtc_once|done].
    + specialize (IH (record y (Z.of_nat ptr) (visit y s)) Hstep).
      destruct (scan_new_states target step ptr rest _) as [ret out s'|s'|]; [| |done].
      * destruct IH as (Hrtc & ? & ?).
        { unfold record, visit. cbn [m_history]. by apply lookup_app_l_Some. }
        { intros; apply Hsucc; by right. }
        split; [|done]. by eapply rtc_l.
      * eapply rtc_l; [done|]. apply IH.
        { unfold record, visit. cbn [m_history]. by apply lookup_app_l_Some. }
        { intros; apply Hsucc; by right. }
Qed.

Lemma expand_run target step count : ∀ ptr s calls,
  0 < step →
  match expand_frontier target step ptr count s calls with
  | (Miss s', _) => rtc records_step s s'
  | (Hit ret out s', _) =>
      rtc records_step s s' ∧ 0 < ret ∧ show s' target ret = Some out
  | (Throw, _) => True
  end.
Proof.
  induction count as [|count IH]; intros ptr s calls Hstep; [simpl; apply rtc_refl|].
  cbn [expand_frontier].
  destruct (m_history s !! ptr) as [[x q]|] eqn:Hx; [|done].
  destruct (next_states x (m_volumes s)) as [new_states|] eqn:Hnext; [|done].
  pose proof (scan_run target step ptr x q new_states s Hstep Hx) as Hscan.
  destruct (scan_new_states target step ptr new_states s) as [ret out s'|s'|]; [| |done].
  - apply Hscan. intros y Hy. by exists new_states.
  - specialize (IH (S ptr) s' (S calls) Hstep).
    assert (rtc records_step s s') as Hrtc.
    { apply Hscan. intros y Hy. by exists new_states. }
    destruct (expand_frontier target step (S ptr) count s' (S calls)) as [[ret out s''|s''|] calls'];
      [| |done].
    + destruct IH as (? & ? & ?). split; [|done]. by etrans.
    + by etrans.
Qed.

Lemma bfs_loop_run target fuel : ∀ step old_ptr s calls,
  0 ≤ step →
  match bfs_loop fuel target step old_ptr s calls with
  | Returned ret out s' _ => run_post target s ret out s'
  | Aborted => True
  | OutOfFuel s' => rtc records_step s s'
  end.
Proof.
  induction fuel as [|fuel IH]; intros step old_ptr s calls Hstep.
  - simpl. case_decide; [|apply rtc_refl]. split; [apply rtc_refl|]. by left.
  - cbn [bfs_loop]. case_decide.
    { split; [apply rtc_refl|]. by left. }
    cbn zeta.
    pose proof (expand_run target (step + 1) (length (m_history s) - old_ptr)
                  old_ptr s calls ltac:(lia)) as Hexp.
    destruct (expand_frontier target (step + 1) old_ptr
                (length (m_history s) - old_ptr) s calls) as [[ret out s'|s'|] calls'];
      [| |done].
    + destruct Hexp as (? & ? & ?). split; [done|]. by right.
    + specialize (IH (step + 1) (length (m_history s)) s' calls' ltac:(lia)).
      destruct (bfs_loop fuel target (step + 1) (length (m_history s)) s' calls')
        as [ret out s''| |s'']; [|done|].
      * destruct IH as [? ?]. split; [by etrans|done].
      * by etrans.
Qed.

(** [solve_water] on a nonzero target. *)
Lemma solve_water_run fuel s target :
  target ≠ 0 →
  match solve_water fuel s target with
  | Returned ret out s' _ => run_post target (start s) ret out s'
  | Aborted => True
  | OutOfFuel s' => rtc records_step (start s) s'
  end.
Proof.
  intros Ht. unfold solve_water. rewrite decide_False by done. cbn zeta.
  apply (bfs_loop_run target fuel 0 0%nat (start s) 0%nat). lia.
Qed.

(** An invariant of the recording steps holds at the end of every run. *)
Lemma rtc_records_invariant (P : Solver → Prop) s s' :
  (∀ s1 s2, P s1 → records_step s1 s2 → P s2) →
  P s → rtc records_step s s' → P s'.
Proof. intros Hstep Hs Hrtc. induction Hrtc; eauto. Qed.

End RunFacts.
Export RunFacts.

(** ** The chain of predecessors *)

Module PathFacts.

(** Every history entry but the first was recorded from an earlier entry, of
    a state it is a successor of, and stores the position of that entry
    converted to [int]; the first holds the all-empty state and no index. *)
Definition linked (volumes : VesselsState) (h : History) : Prop :=
  ∀ i x q, h !! i = Some (x, q) →
    (i = 0%nat ∧ q = INVALID_IDX ∧ x = empty) ∨
    ((0 < i)%nat ∧
     ∃ p y q', (p < i)%nat ∧ q = to_int (Z.of_nat p) ∧
               h !! p = Some (y, q') ∧ successor volumes y x).

(** The same as [show] reads it: the stored index is itself the position of
    an earlier entry, of a state the entry's state is a successor of. *)
Definition linked_int (volumes : VesselsState) (h : History) : Prop :=
  ∀ i x q, h !! i = Some (x, q) →
    (i = 0%nat ∧ q = INVALID_IDX ∧ x = empty) ∨
    ((0 < i)%nat ∧ 0 ≤ q < Z.of_nat i ∧
     ∃ y q', h !! Z.to_nat q = Some (y, q') ∧ successor volumes y x).

(** The two agree on a history of at most 2^31 entries. *)
Lemma linked_linked_int volumes h :
  Z.of_nat (length h) ≤ INT_MAX + 1 → linked volumes h → linked_int volumes h.
Proof.
  intros Hlen Hlinked i x q Hi.
  destruct (Hlinked i x q Hi) as [?|(Hpos & p & y & q' & Hp & -> & Hy & Hs)]; [by left|].
  right. pose proof (lookup_lt_Some _ _ _ Hi).
  rewrite to_int_small by lia. split; [done|]. split; [lia|].
  exists y, q'. by rewrite Nat2Z.id.
Qed.

(** The rows are a sequence of operations: each row is a successor of the
    row before it. *)
Definition chained (volumes : VesselsState) (rows : list VesselsState) : Prop :=
  ∀ j a b, rows !! j = Some a → rows !! S j = Some b → successor volumes a b.

Lemma linked_start s : linked (m_volumes s) (m_history (start s)).
Proof.
  intros [|i] x q Hx; [|done]. simpl in Hx. simplify_eq. by left.
Qed.

Lemma linked_step volumes s s' :
  m_volumes s = volumes → records_step s s' →
  m_volumes s' = volumes ∧ (linked volumes (m_history s) → linked volumes (m_history s')).
Proof.
  intros <- Hstep. destruct Hstep as [s ptr x q y Hx Hsucc Hfresh].
  split; [done|]. intros Hlinked i z q' Hz.
  unfold record, visit in Hz. cbn [m_history] in Hz.
  apply lookup_app_Some in Hz as [Hz|[Hlen Hz]].
  - destruct (Hlinked i z q' Hz) as [?|(Hi & p & y' & q'' & Hp & Hq & Hy' & Hs)];
      [by left|].
    right. split; [done|]. exists p, y', q''. split_and!; [done..| |done].
    unfold record, visit. cbn [m_history]. by apply lookup_app_l_Some.
  - apply list_lookup_singleton_Some in Hz as [Hi ?]. simplify_eq.
    pose proof (lookup_lt_Some _ _ _ Hx). right. split; [lia|].
    exists ptr, x, q. split_and!; [lia|done| |done].
    unfold record, visit. cbn [m_history]. by apply lookup_app_l_Some.
Qed.

Lemma linked_run volumes s s' :
  m_volumes s = volumes → linked volumes (m_history s) →
  rtc records_step s s' →
  m_volumes s' = volumes ∧ linked volumes (m_history s').
Proof.
  intros Hvol Hl Hrtc.
  apply (rtc_records_invariant
           (λ t, m_volumes t = volumes ∧ linked volumes (m_history t)) s s');
    [|done|done].
  intros s1 s2 [Hv1 Hl1] Hstep.
  destruct (linked_step volumes s1 s2 Hv1 Hstep) as [? Hl2]. auto.
Qed.

(** The row [show] prints for the history index [idx]. *)
Definition row (h : History) (idx : Z) : option VesselsState :=
  entry ← history_at h idx; Some entry.1.

(** The backward walk of [show] over a linked history yields a sequence of
    operations from the all-empty state to the state it started at. *)
Lemma walk_back_path volumes h : linked_int volumes h → ∀ pos idx solution rows,
  walk_back h pos idx = Some solution →
  mapM (row h) solution = Some rows →
  length rows = S pos ∧ head rows = Some empty ∧
  (∃ x q, history_at h idx = Some (x, q) ∧ last rows = Some x) ∧
  chained volumes rows.
Proof.
  intros Hlinked. induction pos as [|pos IH]; intros idx solution rows Hwalk Hrows.
  - simpl in Hwalk.
    destruct (history_at h idx) as [[x q]|] eqn:Hidx; [|done]. simpl in Hwalk.
    case_decide as Hq; [|done]. simplify_eq.
    apply mapM_Some in Hrows.
    apply Forall2_cons_inv_l in Hrows as (x' & nil' & Hx' & Hnil & ->).
    apply Forall2_nil_inv_l in Hnil as ->.
    unfold row in Hx'. rewrite Hidx in Hx'. simpl in Hx'. simplify_eq.
    assert (x' = empty) as ->.
    { unfold history_at in Hidx. case_decide; [done|].
      destruct (Hlinked _ _ _ Hidx) as [(_ & _ & ->)|(_ & ? & _)]; [done|lia]. }
    split_and!; [done..| |].
    + by exists empty, (-1).
    + intros j a b Ha Hb. by destruct j.
  - simpl in Hwalk.
    destruct (history_at h idx) as [[x q]|] eqn:Hidx; [|done]. simpl in Hwalk.
    case_decide as Hq; [|done].
    destruct (walk_back h pos q) as [sol'|] eqn:Hwalk'; [|done]. simpl in Hwalk.
    simplify_eq.
    apply mapM_Some in Hrows.
    apply Forall2_app_inv_l in Hrows as (rows' & last_row & Hrows' & Hlast & ->).
    apply Forall2_cons_inv_l in Hlast as (x' & nil' & Hx' & Hnil & ->).
    apply Forall2_nil_inv_l in Hnil as ->.
    unfold row in Hx'. rewrite Hidx in Hx'. simpl in Hx'. simplify_eq.
    apply mapM_Some in Hrows'.
    destruct (IH q sol' rows' Hwalk' Hrows') as (Hlen & Hhead & (y & q' & Hy & Hlasty) & Hchain).
    split_and!.
    + rewrite length_app. simpl. lia.
    + destruct rows'; [done|]. done.
    + exists x', q. split; [done|]. apply last_snoc.
    + intros j a b Ha Hb.
      destruct (decide (S j < length rows')%nat) as [Hlt|Hge].
      * rewrite lookup_app_l in Ha by lia. rewrite lookup_app_l in Hb by lia.
        by eapply Hchain.
      * assert (S j = length rows') as Hj.
        { apply lookup_lt_Some in Hb. rewrite length_app in Hb. simpl in Hb. lia. }
        rewrite lookup_app_l in Ha by lia.
        rewrite lookup_app_r in Hb by lia. rewrite Hj, Nat.sub_diag in Hb.
        simpl in Hb. simplify_eq.
        rewrite last_lookup in Hlasty.
        replace (pred (length rows')) with j in Hlasty by lia.
        rewrite Ha in Hlasty. simplify_eq.
        unfold history_at in Hidx, Hy. repeat case_decide; try done.
        destruct (Hlinked _ _ _ Hidx) as [(_ & Hq' & _)|(_ & _ & y' & q'' & Hy' & Hs)].
        { unfold INVALID_IDX in Hq'. lia. }
        rewrite Hy in Hy'. by simplify_eq.
Qed.

End PathFacts.
Export PathFacts.

(** ** Further properties of the search engine *)

Module SearchExtra.

Lemma valid_358 : valid_volumes (Vessels 3 5 8).
Proof. unfold valid_volumes, is_water. simpl. lia. Qed.

Lemma valid_123 : valid_volumes (Vessels 1 2 3).
Proof. unfold valid_volumes, is_water. simpl. lia. Qed.

(** The table of a solved puzzle is a solution, when the history has at most
    2^31 entries (every position of the history then fits an [int]): it has
    one row more than the count returned, starts at the all-empty state, ends
    at a state that holds the target, and every row is one Fill, Drain or
    Pour away from the row before it. *)
Theorem show_prints_solution volumes target s fuel ret out s' calls :
  valid_volumes volumes → target ≠ 0 → m_volumes s = volumes →
  solve_water fuel s target = Returned ret out s' calls → 0 ≤ ret →
  Z.of_nat (length (m_history s')) ≤ INT_MAX + 1 →
  ∃ rows, out = Table rows ∧
          length rows = S (Z.to_nat ret) ∧
          head rows = Some empty ∧
          (∃ g, last rows = Some g ∧ contains g target = true) ∧
          chained volumes rows.
Proof.
  intros Hv Ht Hvol Hrun Hret Hsmall.
  pose proof (solve_water_spec volumes target Hv Ht fuel s Hvol) as Hspec.
  pose proof (solve_water_run fuel s target Ht) as Hpost.
  rewrite Hrun in Hspec, Hpost.
  destruct Hspec as [_ [(-> & _)|(k & -> & Hhit)]]; [lia|].
  destruct Hpost as [Hrtc [[? _]|[_ Hshow]]]; [lia|].
  destruct (linked_run volumes (start s) s') as [_ Hlinked]; [done| |done|].
  { rewrite <- Hvol. apply linked_start. }
  apply linked_linked_int in Hlinked; [|done].
  unfold show in Hshow. rewrite decide_False in Hshow by lia.
  case_decide as Hnil; [done|]. cbn zeta in Hshow.
  rewrite last_index_small in Hshow;
    [|destruct (m_history s'); [done|simpl; lia]|done].
  destruct (walk_back (m_history s') (Z.to_nat (Z.of_nat (S k)))
              (Z.of_nat (length (m_history s') - 1))) as [solution|] eqn:Hwalk; [|done].
  cbn [mbind option_bind] in Hshow.
  change (mapM (row (m_history s')) solution ≫= (λ rows, Some (Table rows)) = Some out)
    in Hshow.
  destruct (mapM (row (m_history s')) solution) as [rows|] eqn:Hrows; [|done].
  simpl in Hshow. injection Hshow as <-.
  destruct (walk_back_path volumes (m_history s') Hlinked _ _ _ _ Hwalk Hrows)
    as (Hlen & Hhead & (x & q & Hx & Hlast) & Hchain).
  exists rows. split_and!; [done..| |done].
  destruct (hit_goal _ _ _ _ _ Hhit) as (g & Hg & _ & Hcont).
  exists g. split; [|done]. rewrite Hlast. rewrite <- Hg.
  unfold states. rewrite fmap_last.
  rewrite history_at_of_nat in Hx.
  rewrite last_lookup.
  replace (pred (length (m_history s'))) with (length (m_history s') - 1)%nat by lia.
  by rewrite Hx.
Qed.

Lemma show_prints_solution_witness :
  ∃ rows, length rows = 7%nat ∧ head rows = Some empty ∧
          (∃ g, last rows = Some g ∧ contains g 4 = true) ∧
          chained (Vessels 3 5 8) rows.
Proof.
  assert (returned (solve_water 6 (new_solver (Vessels 3 5 8)) 4) = Some 6) as Hret
    by (vm_compute; reflexivity).
  assert (∀ o, o = solve_water 6 (new_solver (Vessels 3 5 8)) 4 →
               match o with
               | Returned _ _ s' _ => Z.of_nat (length (m_history s')) ≤ INT_MAX + 1
               | _ => True
               end) as Hlen.
  { intros o ->. vm_compute. discriminate. }
  destruct (solve_water 6 (new_solver (Vessels 3 5 8)) 4) as [ret out s' calls| |s'] eqn:Hrun;
    [|discriminate Hret..].
  simpl in Hret. injection Hret as ->.
  specialize (Hlen _ eq_refl). simpl in Hlen.
  destruct (show_prints_solution (Vessels 3 5 8) 4 (new_solver (Vessels 3 5 8)) 6 6 out s' calls)
    as (rows & _ & Hrows); [apply valid_358|lia|reflexivity|exact Hrun|lia|exact Hlen|].
  exists rows. exact Hrows.
Defined.


(** Every recorded state can be reached from the all-empty one by
    operations none of which produces the all-full state. *)
Lemma recorded_avoiding volumes s s' :
  m_volumes s = volumes → rtc records_step (start s) s' →
  ∀ x, x ∈ states (m_history s') → ∃ d, avoiding volumes d x.
Proof.
  intros Hvol Hrtc.
  pose (P := λ t : Solver,
      m_volumes t = volumes ∧ volumes ∈ m_visited t ∧
      ∀ x, x ∈ states (m_history t) → ∃ d, avoiding volumes d x).
  assert (P s') as (_ & _ & Hall); [|done].
  apply (rtc_records_invariant P (start s) s'); [| |done].
  - intros s1 s2 (Hv1 & Hfull & Hreach) Hstep.
    destruct Hstep as [s1 ptr x q y Hx Hsucc Hfresh].
    unfold P, record, visit. cbn [m_volumes m_visited m_history]. split_and!.
    + done.
    + apply elem_of_union. by right.
    + intros z. rewrite states_record, elem_of_app, list_elem_of_singleton.
      intros [Hz| ->]; [by apply Hreach|].
      destruct (Hreach x) as [d Hd]; [apply elem_of_states; eauto|].
      exists (S d). eapply avoiding_step; [done| |].
      * by rewrite <- Hv1.
      * intros ->. done.
  - unfold P, start, record, visit, init. cbn [m_volumes m_visited m_history].
    split_and!; [done| |].
    + rewrite Hvol. apply elem_of_union. left. by apply elem_of_singleton.
    + intros x. unfold states. simpl. intros ->%list_elem_of_singleton.
      exists 0%nat. constructor.
Qed.

(** After a search the history starts with the all-empty state and no
    predecessor, the visited set is the recorded states and the all-full
    state, and every recorded state can be reached from the all-empty one by
    operations none of which produces the all-full state. *)
Theorem history_holds_reachable_states volumes target s fuel ret out s' calls :
  valid_volumes volumes → target ≠ 0 → m_volumes s = volumes →
  solve_water fuel s target = Returned ret out s' calls →
  m_history s' !! 0%nat = Some (empty, INVALID_IDX) ∧
  (∀ x, x ∈ m_visited s' ↔ x = volumes ∨ x ∈ states (m_history s')) ∧
  (∀ x, x ∈ states (m_history s') → ∃ d, avoiding volumes d x).
Proof.
  intros Hv Ht Hvol Hrun.
  pose proof (solve_water_spec volumes target Hv Ht fuel s Hvol) as Hspec.
  pose proof (solve_water_run fuel s target Ht) as Hpost.
  rewrite Hrun in Hspec, Hpost. destruct Hspec as [Hbase _]. destruct Hpost as [Hrtc _].
  split_and!.
  - by destruct (inv_root _ _ Hbase) as [h ->].
  - intros x. rewrite (inv_visited _ _ Hbase). split; [|tauto].
    intros [->|[?|?]]; auto. right. by apply (base_inv_empty_in volumes).
  - by apply (recorded_avoiding volumes s s').
Qed.

Lemma history_holds_reachable_states_witness :
  ∃ s', returned (solve_water 24 (new_solver (Vessels 1 2 3)) 5) = Some (-1) ∧
        m_history s' !! 0%nat = Some (empty, INVALID_IDX) ∧
        (∀ x, x ∈ m_visited s' ↔ x = Vessels 1 2 3 ∨ x ∈ states (m_history s')) ∧
        (∀ x, x ∈ states (m_history s') → ∃ d, avoiding (Vessels 1 2 3) d x).
Proof.
  assert (returned (solve_water 24 (new_solver (Vessels 1 2 3)) 5) = Some (-1)) as Hret
    by (vm_compute; reflexivity).
  destruct (solve_water 24 (new_solver (Vessels 1 2 3)) 5) as [ret out s' calls| |s'] eqn:Hrun;
    [|discriminate Hret..].
  exists s'. split; [exact Hret|].
  apply (history_holds_reachable_states (Vessels 1 2 3) 5 (new_solver (Vessels 1 2 3))
           24 ret out s' calls); [apply valid_123|lia|reflexivity|exact Hrun].
Defined.

Lemma scan_length target step ptr new_states : ∀ s,
  match scan_new_states target step ptr new_states s with
  | Miss s' => (length (m_history s) ≤ length (m_history s'))%nat
  | Hit _ _ s' => (length (m_history s) < length (m_history s'))%nat
  | Throw => True
  end.
Proof.
  induction new_states as [|y rest IH]; intros s; [simpl; lia|].
  cbn [scan_new_states]. case_decide; [apply IH|].
  assert (length (m_history (record y (Z.of_nat ptr) (visit y s)))
          = S (length (m_history s))) as Hlen.
  { unfold record, visit. cbn [m_history]. rewrite length_app. simpl. lia. }
  destruct (contains y target).
  - destruct (show _ target step); [lia|done].
  - specialize (IH (record y (Z.of_nat ptr) (visit y s))).
    destruct (scan_new_states target step ptr rest _); [lia|lia|done].
Qed.

Lemma expand_calls target step count : ∀ ptr s calls,
  match expand_frontier target step ptr count s calls with
  | (Miss s', calls') =>
      calls' = (calls + count)%nat ∧ (length (m_history s) ≤ length (m_history s'))%nat
  | (Hit _ _ s', calls') =>
      (calls' ≤ calls + count)%nat ∧ (length (m_history s) < length (m_history s'))%nat
  | (Throw, _) => True
  end.
Proof.
  induction count as [|count IH]; intros ptr s calls; [simpl; lia|].
  cbn [expand_frontier].
  destruct (m_history s !! ptr) as [[x q]|]; [|done].
  destruct (next_states x (m_volumes s)) as [new_states|]; [|done].
  pose proof (scan_length target step ptr new_states s) as Hscan.
  destruct (scan_new_states target step ptr new_states s) as [ret out s'|s'|]; [lia| |done].
  specialize (IH (S ptr) s' (S calls)).
  destruct (expand_frontier target step (S ptr) count s' (S calls)) as [[ret out s''|s''|] calls'];
    [lia|lia|done].
Qed.

Lemma bfs_loop_calls target fuel : ∀ step old_ptr s,
  0 ≤ step → (old_ptr ≤ length (m_history s))%nat →
  match bfs_loop fuel target step old_ptr s old_ptr with
  | Returned ret _ s' calls =>
      (ret = -1 ∧ calls = length (m_history s')) ∨
      (0 < ret ∧ (calls < length (m_history s'))%nat)
  | _ => True
  end.
Proof.
  induction fuel as [|fuel IH]; intros step old_ptr s Hstep Hptr.
  - simpl. case_decide; [|done]. by left.
  - cbn [bfs_loop]. case_decide; [by left|]. cbn zeta.
    pose proof (expand_calls target (step + 1) (length (m_history s) - old_ptr)
                  old_ptr s old_ptr) as Hexp.
    pose proof (expand_run target (step + 1) (length (m_history s) - old_ptr)
                  old_ptr s old_ptr ltac:(lia)) as Hrun.
    destruct (expand_frontier target (step + 1) old_ptr
                (length (m_history s) - old_ptr) s old_ptr) as [[ret out s'|s'|] calls'];
      [| |done].
    + right. split; [tauto|lia].
    + destruct Hexp as [-> Hlen].
      replace (old_ptr + (length (m_history s) - old_ptr))%nat
        with (length (m_history s)) by lia.
      apply IH; lia.
Qed.

(** The calls of [next_states] and the history.  When the search is
    exhausted, [next_states] was called as many times as the history has
    entries, and every successor of a recorded state, the all-full state
    apart, is recorded: every entry was expanded.  When the target is found,
    it was called fewer times than the history has entries. *)
Theorem next_states_calls_and_entries volumes target s fuel ret out s' calls :
  valid_volumes volumes → target ≠ 0 → m_volumes s = volumes →
  solve_water fuel s target = Returned ret out s' calls →
  (ret = -1 ∧ calls = length (m_history s') ∧
   ∀ x y, x ∈ states (m_history s') → successor volumes x y → y ≠ volumes →
          y ∈ states (m_history s')) ∨
  (0 < ret ∧ (calls < length (m_history s'))%nat).
Proof.
  intros Hv Ht Hvol Hrun.
  pose proof (solve_water_spec volumes target Hv Ht fuel s Hvol) as Hspec.
  pose proof (solve_water_run fuel s target Ht) as Hpost.
  rewrite Hrun in Hspec, Hpost. destruct Hpost as [Hrtc _].
  unfold solve_water in Hrun. rewrite decide_False in Hrun by done.
  cbn zeta in Hrun.
  pose proof (bfs_loop_calls target fuel 0 0%nat (start s) ltac:(lia) ltac:(lia)) as Hcalls.
  change (bfs_loop fuel target 0 0 (start s) 0 = Returned ret out s' calls) in Hrun.
  rewrite Hrun in Hcalls.
  destruct Hcalls as [[-> ->]|?]; [|by right]. left. split; [done|]. split; [done|].
  destruct Hspec as [_ [(_ & _ & Hall & _)|(k & ? & _)]]; [|lia].
  intros x y Hx Hsucc Hne.
  destruct (recorded_avoiding volumes s s' Hvol Hrtc x Hx) as [d Hd].
  apply (Hall (S d)). by eapply avoiding_step.
Qed.

Lemma next_states_calls_and_entries_witness :
  ∃ out s' calls,
    solve_water 24 (new_solver (Vessels 1 2 3)) 5 = Returned (-1) out s' calls ∧
    calls = length (m_history s') ∧
    ∀ x y, x ∈ states (m_history s') → successor (Vessels 1 2 3) x y →
           y ≠ Vessels 1 2 3 → y ∈ states (m_history s').
Proof.
  assert (returned (solve_water 24 (new_solver (Vessels 1 2 3)) 5) = Some (-1)) as Hret
    by (vm_compute; reflexivity).
  destruct (solve_water 24 (new_solver (Vessels 1 2 3)) 5) as [ret out s' calls| |s'] eqn:Hrun;
    [|discriminate Hret..].
  simpl in Hret. injection Hret as ->.
  exists out, s', calls. split; [reflexivity|].
  destruct (next_states_calls_and_entries (Vessels 1 2 3) 5 (new_solver (Vessels 1 2 3))
              24 (-1) out s' calls)
    as [(_ & Heq & Hclosed)|[Hpos _]];
    [apply valid_123|lia|reflexivity|exact Hrun|exact (conj Heq Hclosed)|lia].
Defined.


(** The solver can be used again: after a call that returned, a call with a
    nonzero target ends as it does on a solver freshly constructed for the
    same capacities, whatever the first call left in the history and the
    visited set. *)
Theorem solve_water_reusable fuel1 fuel2 s target1 target2 ret out s' calls :
  solve_water fuel1 s target1 = Returned ret out s' calls →
  target2 ≠ 0 →
  solve_water fuel2 s' target2 = solve_water fuel2 (new_solver (m_volumes s)) target2.
Proof.
  intros Hrun Ht2.
  assert (m_volumes s' = m_volumes s) as Hvol.
  { destruct (decide (target1 = 0)) as [->|Ht1].
    - unfold solve_water in Hrun. simpl in Hrun. by simplify_eq.
    - pose proof (solve_water_run fuel1 s target1 Ht1) as Hpost.
      rewrite Hrun in Hpost. destruct Hpost as [Hrtc _].
      apply (rtc_records_invariant (λ t, m_volumes t = m_volumes s) (start s) s');
        [|done|done].
      intros s1 s2 Hs1 Hstep. by destruct Hstep. }
  unfold solve_water. rewrite !decide_False by done.
  unfold init, new_solver. cbn [m_volumes]. by rewrite Hvol.
Qed.

Lemma solve_water_reusable_witness :
  ∃ s', returned (solve_water 6 (new_solver (Vessels 3 5 8)) 4) = Some 6 ∧
        solve_water 24 s' 7 = solve_water 24 (new_solver (Vessels 3 5 8)) 7.
Proof.
  assert (returned (solve_water 6 (new_solver (Vessels 3 5 8)) 4) = Some 6) as Hret
    by (vm_compute; reflexivity).
  destruct (solve_water 6 (new_solver (Vessels 3 5 8)) 4) as [ret out s' calls| |s'] eqn:Hrun;
    [|discriminate Hret..].
  exists s'. split.
  - exact Hret.
  - apply (solve_water_reusable 6 24 (new_solver (Vessels 3 5 8)) 4 7 ret out s' calls);
      [exact Hrun|lia].
Defined.

(** A target above every capacity is not rejected up front: the search runs
    to exhaustion and then returns -1.  At the return the history holds, each
    once, the states that can be reached from the all-empty one by operations
    none of which produces the all-full state, and [next_states] was called
    once for every entry of it. *)
Theorem solve_water_target_above_capacities volumes target s fuel :
  valid_volumes volumes → m_volumes s = volumes →
  v0 volumes < target → v1 volumes < target → v2 volumes < target →
  (state_space volumes ≤ fuel)%nat →
  ∃ s' calls,
    solve_water fuel s target = Returned (-1) Silent s' calls ∧
    NoDup (states (m_history s')) ∧
    (∀ y, y ∈ states (m_history s') ↔ ∃ d, avoiding volumes d y) ∧
    calls = length (m_history s') ∧ (0 < calls)%nat.
Proof.
  intros Hv Hvol H0 H1 H2 Hfuel.
  assert (target ≠ 0) as Ht.
  { destruct Hv as [[? ?] _]. lia. }
  destruct (Spec.solve_water_exhausts volumes target s fuel Hv Ht Hvol Hfuel)
    as (s' & calls & Hrun & Hbase & Hcases).
  { intros d g Hav. apply not_true_is_false. intros Hcont.
    apply avoiding_reachable in Hav.
    pose proof (reachable_in_bounds volumes _ g Hv Hav) as (? & ? & ?).
    apply contains_spec in Hcont. lia. }
  exists s', calls. split; [done|].
  pose proof (solve_water_run fuel s target Ht) as Hpost.
  rewrite Hrun in Hpost. destruct Hpost as [Hrtc _].
  assert (calls = length (m_history s')) as Hcalls.
  { unfold solve_water in Hrun. rewrite decide_False in Hrun by done.
    cbn zeta in Hrun.
    pose proof (bfs_loop_calls target fuel 0 0%nat (start s) ltac:(lia) ltac:(lia)) as Hc.
    change (bfs_loop fuel target 0 0 (start s) 0 = Returned (-1) Silent s' calls) in Hrun.
    rewrite Hrun in Hc. destruct Hc as [[_ ?]|[? _]]; [done|lia]. }
  split_and!.
  - apply (inv_nodup _ _ Hbase).
  - intros y. split; [by apply (recorded_avoiding volumes s s')|].
    intros [d Hd]. destruct Hcases as [(_ & _ & Hall & _)|(k & ? & _)]; [|lia].
    by apply (Hall d).
  - done.
  - rewrite Hcalls. destruct (inv_root _ _ Hbase) as [h ->]. simpl. lia.
Qed.

Lemma solve_water_target_above_capacities_witness :
  ∃ s' calls,
    solve_water 216 (new_solver (Vessels 3 5 8)) 9 = Returned (-1) Silent s' calls ∧
    NoDup (states (m_history s')) ∧
    (∀ y, y ∈ states (m_history s') ↔ ∃ d, avoiding (Vessels 3 5 8) d y) ∧
    calls = length (m_history s') ∧ (0 < calls)%nat.
Proof.
  apply (solve_water_target_above_capacities (Vessels 3 5 8) 9 (new_solver (Vessels 3 5 8)) 216).
  - apply valid_358.
  - reflexivity.
  - simpl. lia.
  - simpl. lia.
  - simpl. lia.
  - vm_compute. lia.
Defined.

(** One Fill of a vessel whose capacity is the target holds the target. *)
Lemma capacity_one_fill volumes target :
  contains volumes target = true → ¬ single_capacity volumes target →
  ∃ g, avoiding volumes 1 g ∧ contains g target = true.
Proof.
  intros Hcont Hsingle. apply contains_spec in Hcont.
  unfold single_capacity in Hsingle. destruct volumes as [a b c]. simpl in Hcont.
  destruct Hcont as [->|[->| ->]].
  - exists (Vessels target 0 0). split; [|apply contains_spec; simpl; auto].
    apply (avoiding_step _ _ empty); [constructor| |intros ?; simplify_eq; tauto].
    by apply (fill_successor _ _ 0%nat target).
  - exists (Vessels 0 target 0). split; [|apply contains_spec; simpl; auto].
    apply (avoiding_step _ _ empty); [constructor| |intros ?; simplify_eq; tauto].
    by apply (fill_successor _ _ 1%nat target).
  - exists (Vessels 0 0 target). split; [|apply contains_spec; simpl; auto].
    apply (avoiding_step _ _ empty); [constructor| |intros ?; simplify_eq; tauto].
    by apply (fill_successor _ _ 2%nat target).
Qed.

(** A target equal to one of the capacities takes one step (one Fill),
    unless it is the only nonzero capacity. *)
Theorem solve_water_capacity_in_one_step volumes target s fuel :
  valid_volumes volumes → target ≠ 0 → m_volumes s = volumes →
  contains volumes target = true → ¬ single_capacity volumes target →
  (state_space volumes ≤ fuel)%nat →
  ∃ out s' calls, solve_water fuel s target = Returned 1 out s' calls.
Proof.
  intros Hv Ht Hvol Hcont Hsingle Hfuel.
  destruct (capacity_one_fill volumes target Hcont Hsingle) as (g & Hg & Hgc).
  destruct (solve_water_ends volumes target Hv Ht fuel s Hvol Hfuel)
    as [(ret & out & s' & calls & Hrun & _ & [(_ & _ & _ & Hnone)|(k & -> & Hpost)])
       |[_ (k & m & [_ Hleast (n & Hn & _ & Hm)] & Hfirst)]].
  - rewrite (Hnone 1%nat g Hg) in Hgc. done.
  - pose proof (hit_least _ _ _ _ _ Hpost 1%nat g Hg Hgc).
    assert (k = 0%nat) as -> by lia. by exists out, s', calls.
  - exfalso. pose proof (Hleast 1%nat g Hg Hgc).
    assert (k = 0%nat) as Hk by lia. specialize (Hfirst Hk).
    unfold INT_MAX in Hn. lia.
Qed.

Lemma solve_water_capacity_in_one_step_witness :
  ∃ out s' calls, solve_water 8 (new_solver (Vessels 1 1 1)) 1 = Returned 1 out s' calls.
Proof.
  apply (solve_water_capacity_in_one_step (Vessels 1 1 1) 1 (new_solver (Vessels 1 1 1)) 8).
  - unfold valid_volumes, is_water. simpl. lia.
  - lia.
  - reflexivity.
  - reflexivity.
  - unfold single_capacity. intros [H|[H|H]]; discriminate H.
  - vm_compute. lia.
Defined.

(** The integers of a run on the capacities 3, 5 and 8, with 216 states
    within the bounds: every stored index is the position of an earlier
    entry. *)
Lemma solve_water_counters_witness :
  ∃ ret s',
    returned (solve_water 6 (new_solver (Vessels 3 5 8)) 4) = Some ret ∧
    -1 ≤ ret < Z.of_nat (length (m_history s')) ∧
    (length (m_history s') ≤ state_space (Vessels 3 5 8))%nat ∧
    (∀ i x q, m_history s' !! i = Some (x, q) →
       (i = 0%nat ∧ q = INVALID_IDX) ∨
       ∃ p, (p < i)%nat ∧ q = to_int (Z.of_nat p)) ∧
    (Z.of_nat (state_space (Vessels 3 5 8)) ≤ INT_MAX →
     ∀ i x q, m_history s' !! i = Some (x, q) →
       (i = 0%nat ∧ q = INVALID_IDX) ∨ 0 ≤ q < Z.of_nat i).
Proof.
  assert (returned (solve_water 6 (new_solver (Vessels 3 5 8)) 4) = Some 6) as Hret
    by (vm_compute; reflexivity).
  destruct (solve_water 6 (new_solver (Vessels 3 5 8)) 4) as [ret out s' calls| |s'] eqn:Hrun;
    [|discriminate Hret..].
  exists ret, s'. split; [reflexivity|].
  apply (Spec.solve_water_counters (Vessels 3 5 8) 4 (new_solver (Vessels 3 5 8)) 6 ret out s' calls);
    [apply valid_358|lia|reflexivity|exact Hrun].
Defined.

End SearchExtra.

(** ** Further properties of the state model *)

Module StateExtra.

#[local] Arguments for_range : simpl never.

(** [next_states] never throws, on any state and any capacities, and pushes
    at least 3 and at most 9 states: one Fill or Drain for each vessel and up
    to six Pours, so the 12 places it reserves are enough. *)
Theorem next_states_pushes_3_to_9 (s volumes : VesselsState) :
  ∃ l, next_states s volumes = Some l ∧ (3 ≤ length l ≤ 9)%nat.
Proof.
  destruct (next_moves_spec s volumes) as (moves & Hmoves & _).
  exists (moves.*2). unfold next_states. rewrite Hmoves. split; [done|].
  rewrite length_fmap. unfold next_moves in Hmoves.
  apply for_range_3 in Hmoves as (l0 & l1 & l2 & H0 & H1 & H2 & ->).
  apply moves_from_length in H0, H1, H2; try lia.
  rewrite !length_app. lia.
Qed.


(** Every operation [next_states] applies changes the state, except the Fill
    of a vessel of capacity 0, which gives the state back. *)
Theorem move_changes_state volumes s moves m s' :
  valid_volumes volumes → in_bounds volumes s →
  next_moves s volumes = Some moves → (m, s') ∈ moves →
  (s' = s ↔ ∃ v, m = Fill v ∧ at_ volumes v = Some 0).
Proof.
  intros Hv Hb Hmoves Hin.
  destruct (next_moves_spec s volumes) as (moves' & Hmoves' & Hspec).
  rewrite Hmoves in Hmoves'. simplify_eq. apply Hspec in Hin.
  inversion Hin as [v vf r Ha Hc Hr|v f r Ha Hf Hr|src dst f t vt r Hne Ht Hvt Hlt Hf Hpos Hr];
    subst.
  - split.
    + intros ->. exists v. split; [done|].
      rewrite <- (at_set_at_eq _ _ _ _ Hr) in Hc. by rewrite Ha in Hc.
    + intros (v' & Hv' & Hzero). simplify_eq.
      destruct s, v' as [|[|[|?]]]; simpl in *; by simplify_eq.
  - split.
    + intros ->. pose proof (at_set_at_eq _ _ _ _ Hr) as Hz. rewrite Ha in Hz.
      by simplify_eq.
    + intros (v' & ? & _). done.
  - split; [|intros (v' & ? & _); done].
    intros ->.
    destruct (transfer_spec volumes s src dst f t vt) as (r' & Er & Hcase & _); try done.
    rewrite Er in Hr. simplify_eq. case_decide.
    + destruct Hcase as [Hsrc _]. rewrite Hf in Hsrc. simplify_eq; lia.
    + destruct Hcase as [Hdst _]. rewrite Ht in Hdst. simplify_eq; lia.
Qed.

Lemma move_changes_state_witness :
  Vessels 0 5 0 = Vessels 0 5 0 ↔ ∃ v, Fill 0 = Fill v ∧ at_ (Vessels 0 5 8) v = Some 0.
Proof.
  apply (move_changes_state (Vessels 0 5 8) (Vessels 0 5 0)
           [(Fill 0, Vessels 0 5 0); (Drain 1, Vessels 0 0 0); (Pour 1 2, Vessels 0 0 5);
            (Fill 2, Vessels 0 5 8)]).
  - unfold valid_volumes, is_water. simpl. lia.
  - unfold in_bounds. simpl. lia.
  - vm_compute. reflexivity.
  - apply list_elem_of_In. simpl. tauto.
Defined.

(** Some vessel is empty or full. *)
Definition on_edge (volumes s : VesselsState) : Prop :=
  ∃ i x c, at_ s i = Some x ∧ at_ volumes i = Some c ∧ (x = 0 ∨ x = c).

Lemma move_on_edge volumes s m s' :
  valid_volumes volumes → in_bounds volumes s →
  move volumes s m s' → on_edge volumes s'.
Proof.
  intros Hv Hb Hm.
  inversion Hm as [v vf r Ha Hc Hr|v f r Ha Hf Hr|src dst f t vt r Hne Ht Hvt Hlt Hf Hpos Hr];
    subst.
  - exists v, vf, vf. split_and!; [by eapply at_set_at_eq|done|by right].
  - destruct (proj1 (at_is_Some volumes v) (at_lt _ _ _ Ha)) as [c Hc].
    exists v, 0, c. split_and!; [by eapply at_set_at_eq|done|by left].
  - destruct (transfer_spec volumes s src dst f t vt) as (r' & Er & Hcase & _); try done.
    rewrite Er in Hr. simplify_eq. case_decide.
    + destruct Hcase as [Hsrc _].
      destruct (proj1 (at_is_Some volumes src) (at_lt _ _ _ Hf)) as [c Hc].
      exists src, 0, c. split_and!; [done..|by left].
    + destruct Hcase as [Hdst _]. exists dst, vt, vt. split_and!; [done..|by right].
Qed.

(** In every state reachable from the all-empty one some vessel is empty or
    full: every operation leaves the vessel it fills full, the vessel it
    drains empty, and after a Pour the source empty or the destination
    full. *)
Theorem reachable_on_edge volumes n s :
  valid_volumes volumes → reachable volumes n s → on_edge volumes s.
Proof.
  intros Hv Hs. inversion Hs as [|n' s0 s1 Hs0 Hsucc]; subst.
  - exists 0%nat, 0, (v0 volumes). split_and!; [done..|by left].
  - apply successor_move in Hsucc as [m Hm].
    eapply move_on_edge; [done| |done]. by eapply reachable_in_bounds.
Qed.

Lemma reachable_on_edge_witness : on_edge (Vessels 3 5 8) (Vessels 3 2 0).
Proof.
  apply (reachable_on_edge (Vessels 3 5 8) 2 (Vessels 3 2 0)).
  - unfold valid_volumes, is_water. simpl. lia.
  - apply (reachable_step _ _ (Vessels 0 5 0)).
    + apply (reachable_step _ _ empty); [constructor|].
      by apply (fill_successor _ _ 1%nat 5).
    + apply successor_move. exists (Pour 1 0).
      by apply (move_pour _ _ 1%nat 0%nat 5 0 3).
Defined.

End StateExtra.

(** ** Further properties of utils.h and of [main] *)

Module UtilsExtra.

(** On [water] values [gcd] is the greatest common divisor: the conversion of
    [x % y] to [water] never changes it and the recursion ends within the
    value of its second argument. *)
Theorem gcd_is_greatest_common_divisor x y z :
  is_water x → is_water y → is_water z →
  gcd2 x y = Z.gcd x y ∧
  gcd3 x y z = Z.gcd (Z.gcd x y) z ∧
  is_water (gcd3 x y z) ∧
  (gcd3 x y z | x) ∧ (gcd3 x y z | y) ∧ (gcd3 x y z | z) ∧
  ∀ d, (d | x) → (d | y) → (d | z) → (d | gcd3 x y z).
Proof.
  intros Hx Hy Hz.
  assert (gcd2 x y = Z.gcd x y) as H2.
  { apply gcd2_correct; [|done]. unfold is_water in Hx. lia. }
  rewrite gcd3_correct by done. split_and!; [done..| | | | |].
  - unfold is_water in *. split; [apply Z.gcd_nonneg|].
    destruct (decide (z = 0)) as [->|Hz0].
    + rewrite Z.gcd_0_r, Z.abs_eq by apply Z.gcd_nonneg.
      destruct (decide (y = 0)) as [->|Hy0].
      * rewrite Z.gcd_0_r. lia.
      * assert (0 < y) as Hpos by lia.
        pose proof (Z.divide_pos_le _ _ Hpos (Z.gcd_divide_r x y)). lia.
    + assert (0 < z) as Hpos by lia.
      pose proof (Z.divide_pos_le _ _ Hpos (Z.gcd_divide_r (Z.gcd x y) z)). lia.
  - etrans; [apply Z.gcd_divide_l|apply Z.gcd_divide_l].
  - etrans; [apply Z.gcd_divide_l|apply Z.gcd_divide_r].
  - apply Z.gcd_divide_r.
  - intros d Hdx Hdy Hdz. apply Z.gcd_greatest; [|done]. by apply Z.gcd_greatest.
Qed.

Lemma gcd_is_greatest_common_divisor_witness :
  gcd2 1071 462 = Z.gcd 1071 462 ∧
  gcd3 1071 462 84 = Z.gcd (Z.gcd 1071 462) 84 ∧
  is_water (gcd3 1071 462 84) ∧
  (gcd3 1071 462 84 | 1071) ∧ (gcd3 1071 462 84 | 462) ∧ (gcd3 1071 462 84 | 84) ∧
  ∀ d, (d | 1071) → (d | 462) → (d | 84) → (d | gcd3 1071 462 84).
Proof.
  apply (gcd_is_greatest_common_divisor 1071 462 84); unfold is_water; lia.
Defined.

Lemma xor_swap a b :
  Z.lxor b (Z.lxor a b) = a ∧ Z.lxor (Z.lxor a b) a = b.
Proof.
  split.
  - rewrite (Z.lxor_comm a b), <- Z.lxor_assoc, Z.lxor_nilpotent. apply Z.lxor_0_l.
  - rewrite (Z.lxor_comm a b), Z.lxor_assoc, Z.lxor_nilpotent. apply Z.lxor_0_r.
Qed.

Lemma sort2_swap a b : sort2 a b = if decide (a > b) then (b, a) else (a, b).
Proof.
  unfold sort2. case_decide; [|done]. cbn zeta.
  destruct (xor_swap a b) as [H1 H2]. by rewrite H1, H2.
Qed.

(** [sort2] leaves the smaller value in its first variable and the larger in
    its second: the three exclusive ors exchange the two values. *)
Theorem sort2_min_max a b : sort2 a b = (Z.min a b, Z.max a b).
Proof.
  rewrite sort2_swap. case_decide; f_equal; lia.
Qed.

(** [sort3] leaves its three variables in ascending order, holding the three
    values it was given. *)
Theorem sort3_sorts a b c :
  ∃ x y z, sort3 a b c = (x, y, z) ∧ x ≤ y ≤ z ∧ [x; y; z] ≡ₚ [a; b; c].
Proof.
  unfold sort3. rewrite !sort2_swap.
  repeat case_decide; simpl; rewrite ?sort2_swap; repeat case_decide; simpl;
    rewrite ?sort2_swap; repeat case_decide;
    eexists _, _, _; (split; [reflexivity|]); (split; [lia|]);
    first [ reflexivity
          | apply perm_swap
          | apply perm_skip, perm_swap
          | (etrans; [apply perm_swap|]; apply perm_skip, perm_swap)
          | (etrans; [apply perm_skip, perm_swap|]; apply perm_swap)
          | (etrans; [apply perm_swap|]; etrans; [apply perm_skip, perm_swap|]; apply perm_swap) ].
Qed.

End UtilsExtra.

(** ** Further properties of [main] *)

Module MainExtra.

Lemma gcd3_zero volumes :
  valid_volumes volumes →
  gcd3 (v0 volumes) (v1 volumes) (v2 volumes) = 0 ↔ volumes = empty.
Proof.
  intros (H0 & H1 & H2). rewrite gcd3_correct by done.
  destruct volumes as [a b c]. simpl. split.
  - intros Hg. apply Z.gcd_eq_0 in Hg as [Hg ->].
    apply Z.gcd_eq_0 in Hg as [-> ->]. done.
  - intros H. unfold empty in H. injection H as -> -> ->. reflexivity.
Qed.

(** The remainder that [main] takes for its GCD line is undefined exactly
    when the three capacities are 0. *)
Theorem run_undefined_only_without_capacity fuel volumes target :
  valid_volumes volumes →
  run fuel volumes target = Undefined ↔ volumes = empty.
Proof.
  intros Hv. rewrite <- (gcd3_zero volumes Hv).
  unfold run, rem_checked. simpl.
  case_decide as Hg; [done|]. split; [|done].
  destruct (solve_water fuel (new_solver volumes) target); [|done..].
  by case_decide.
Qed.

Lemma run_undefined_only_without_capacity_witness :
  run 0 (Vessels 0 0 5) 5 = Undefined ↔ Vessels 0 0 5 = empty.
Proof.
  apply (run_undefined_only_without_capacity 0 (Vessels 0 0 5) 5).
  unfold valid_volumes, is_water. simpl. lia.
Defined.

(** No state that can be reached holds a target with a nonzero remainder by
    the GCD of the capacities. *)
Lemma gcd_excludes_target volumes target n g :
  valid_volumes volumes → target ≠ 0 →
  target `rem` gcd3 (v0 volumes) (v1 volumes) (v2 volumes) ≠ 0 →
  reachable volumes n g → contains g target = false.
Proof.
  intros Hv Ht Hrem Hg. apply not_true_is_false. intros Hcont.
  set (d := gcd3 (v0 volumes) (v1 volumes) (v2 volumes)) in *.
  assert (d | target) as Hdiv.
  { eapply levels_divide_contains; [|done].
    eapply reachable_levels_divide; [done|by apply gcd3_divides|done]. }
  destruct (decide (d = 0)) as [Hd|Hd].
  - rewrite Hd in Hdiv. by apply Z.divide_0_l in Hdiv.
  - by apply Z.rem_divide in Hdiv.
Qed.

(** How [main] ends on capacities that are not all 0, given fuel for as many
    rounds as there are states within the bounds.  With no more than
    [INT_MAX] such states it exits with [EX_OK] or [EX_UNAVAILABLE], the
    latter exactly when [solve_water] returned -1, and always when its GCD
    line says the puzzle is unsolvable.  Whatever their number, it exits with
    [EX_UNAVAILABLE] when the remainder of the target by the GCD is not 0;
    and it is ended by an exception only when there are more than [INT_MAX]
    states within the bounds. *)
Theorem run_exit_status fuel volumes target :
  valid_volumes volumes → volumes ≠ empty →
  (state_space volumes ≤ fuel)%nat →
  (Z.of_nat (state_space volumes) ≤ INT_MAX →
   ∃ status unsolvable,
     run fuel volumes target = Exit status unsolvable ∧
     (status = EX_OK ∨ status = EX_UNAVAILABLE) ∧
     (status = EX_UNAVAILABLE ↔
      returned (solve_water fuel (new_solver volumes) target) = Some (-1)) ∧
     (unsolvable = true → status = EX_UNAVAILABLE)) ∧
  (target `rem` gcd3 (v0 volumes) (v1 volumes) (v2 volumes) ≠ 0 →
   run fuel volumes target = Exit EX_UNAVAILABLE true) ∧
  (run fuel volumes target = Terminated →
   INT_MAX < Z.of_nat (state_space volumes)).
Proof.
  intros Hv Hne Hfuel.
  assert (gcd3 (v0 volumes) (v1 volumes) (v2 volumes) ≠ 0) as Hg.
  { by rewrite gcd3_zero. }
  unfold run, rem_checked. simpl. rewrite decide_False by done.
  split_and!.
  - intros Hsmall. destruct (decide (target = 0)) as [->|Ht].
    + unfold solve_water. simpl. exists EX_OK, false. split_and!; try done. by left.
    + destruct (Spec.solve_water_returns volumes target (new_solver volumes) fuel
                  Hv Ht eq_refl Hfuel Hsmall)
        as (ret & out & s' & calls & -> & _ & [(-> & -> & _)|(k & -> & Hpost)]).
      * simpl. eexists EX_UNAVAILABLE, _. split; [reflexivity|].
        split; [by right|]. split; [done|]. done.
      * rewrite decide_False by lia. eexists EX_OK, _. split; [reflexivity|].
        split; [by left|]. split.
        -- simpl. split; [discriminate|]. intros Heq. injection Heq as Heq. lia.
        -- intros Hun%bool_decide_eq_true. exfalso.
           destruct (hit_goal _ _ _ _ _ Hpost) as (g & _ & Hav & Hcont).
           rewrite (gcd_excludes_target volumes target (S k) g) in Hcont; try done.
           by apply avoiding_reachable.
  - intros Hrem.
    assert (target ≠ 0) as Ht.
    { intros ->. apply Hrem. apply Z.rem_0_l. done. }
    destruct (Spec.solve_water_exhausts volumes target (new_solver volumes) fuel
                Hv Ht eq_refl Hfuel) as (s' & calls & -> & _).
    { intros d g Hav. eapply gcd_excludes_target; [done..|].
      by eapply avoiding_reachable. }
    simpl. by rewrite bool_decide_eq_true_2.
  - destruct (decide (target = 0)) as [->|Ht]; [done|].
    pose proof (solve_water_spec volumes target Hv Ht fuel (new_solver volumes) eq_refl)
      as Hspec.
    destruct (solve_water fuel (new_solver volumes) target) as [ret out s' calls| |s'].
    + by case_decide.
    + intros _. by eapply aborted_post_large.
    + done.
Qed.

Lemma run_exit_status_witness :
  (Z.of_nat (state_space (Vessels 2 4 6)) ≤ INT_MAX →
   ∃ status unsolvable,
     run 105 (Vessels 2 4 6) 5 = Exit status unsolvable ∧
     (status = EX_OK ∨ status = EX_UNAVAILABLE) ∧
     (status = EX_UNAVAILABLE ↔
      returned (solve_water 105 (new_solver (Vessels 2 4 6)) 5) = Some (-1)) ∧
     (unsolvable = true → status = EX_UNAVAILABLE)) ∧
  (5 `rem` gcd3 2 4 6 ≠ 0 → run 105 (Vessels 2 4 6) 5 = Exit EX_UNAVAILABLE true) ∧
  (run 105 (Vessels 2 4 6) 5 = Terminated →
   INT_MAX < Z.of_nat (state_space (Vessels 2 4 6))).
Proof.
  apply (run_exit_status 105 (Vessels 2 4 6) 5).
  - unfold valid_volumes, is_water. simpl. lia.
  - discriminate.
  - vm_compute. lia.
Defined.

End MainExtra.

(** ** Properties of the argument handling of [main] *)

Module CommandLineExtra.

(** An argument [main] accepts: [strtol] read a number, read the argument to
    its end, and the number is a [water] value. *)
Definition accepted (p : parsed) : Prop :=
  end_moved p = true ∧ end_at_nul p = true ∧ is_water (strtol_result p).

Lemma check_number_Some p n :
  check_number p = Some n ↔ accepted p ∧ n = strtol_result p.
Proof.
  unfold check_number, accepted. cbn zeta. case_decide as H.
  - split; [done|]. intros [(Hm & Hn & Hw) _]. exfalso.
    destruct H as [H|[H|H]]; [congruence|congruence|].
    apply H. by apply wrap16_small.
  - assert (wrap16 (strtol_result p) = strtol_result p) as Heq.
    { destruct (decide (wrap16 (strtol_result p) = strtol_result p)); [done|].
      exfalso. apply H. auto. }
    split.
    + intros [= <-]. split; [|done]. split_and!.
      * destruct (end_moved p); [done|]. exfalso. apply H. auto.
      * destruct (end_at_nul p); [done|]. exfalso. apply H. auto.
      * rewrite <- Heq. apply wrap16_is_water.
    + intros [_ ->]. by rewrite Heq.
Qed.

Lemma check_number_None p : check_number p = None ↔ ¬ accepted p.
Proof.
  destruct (check_number p) as [n|] eqn:Hn.
  - apply check_number_Some in Hn as [? _]. split; [done|tauto].
  - split; [|done]. intros _ Hacc.
    assert (check_number p = Some (strtol_result p)) as Hs by by apply check_number_Some.
    congruence.
Qed.


(** [main] gets past the parsing of its arguments exactly when it is given
    four accepted arguments.  It then goes on from the quick check, as [run]
    does, on [water] values: the smaller of the first two numbers, the larger
    of them, the third number as it is, and the fourth as the target.  (The
    quick check comes before the solver: with the three capacities 0 it
    divides by zero and no solver is constructed.) *)
Theorem main_accepts_water_values fuel args volumes target o :
  main fuel args = Ran volumes target o ↔
  ∃ p1 p2 p3 p4,
    args = [p1; p2; p3; p4] ∧
    accepted p1 ∧ accepted p2 ∧ accepted p3 ∧ accepted p4 ∧
    volumes = Vessels (Z.min (strtol_result p1) (strtol_result p2))
                      (Z.max (strtol_result p1) (strtol_result p2))
                      (strtol_result p3) ∧
    target = strtol_result p4 ∧
    valid_volumes volumes ∧ is_water target ∧
    o = run fuel volumes target ∧
    (o = Undefined ↔ volumes = empty).
Proof.
  assert (∀ v t, valid_volumes v → run fuel v t = Undefined ↔ v = empty) as Hundef.
  { intros v t Hv. rewrite <- (MainExtra.gcd3_zero v Hv).
    unfold run, rem_checked. simpl.
    case_decide as Hg; [done|]. split; [|done].
    destruct (solve_water fuel (new_solver v) t); [|done..].
    by case_decide. }
  split.
  - destruct args as [|p1 [|p2 [|p3 [|p4 [|p5 rest]]]]]; try done.
    unfold main.
    destruct (check_number p1) as [n1|] eqn:H1; [|done].
    destruct (check_number p2) as [n2|] eqn:H2; [|done].
    destruct (check_number p3) as [n3|] eqn:H3; [|done].
    destruct (check_number p4) as [n4|] eqn:H4; [|done].
    apply check_number_Some in H1 as [A1 ->], H2 as [A2 ->], H3 as [A3 ->], H4 as [A4 ->].
    unfold sort_first_two.
    pose proof A1 as (_ & _ & W1). pose proof A2 as (_ & _ & W2).
    pose proof A3 as (_ & _ & W3). pose proof A4 as (_ & _ & W4).
    unfold is_water in *.
    case_decide; intros [= <- <- <-]; exists p1, p2, p3, p4.
    + rewrite Z.min_r, Z.max_l by lia.
      split_and!; try done; try (unfold valid_volumes, is_water; simpl; lia);
        apply Hundef; unfold valid_volumes, is_water; simpl; lia.
    + rewrite Z.min_l, Z.max_r by lia.
      split_and!; try done; try (unfold valid_volumes, is_water; simpl; lia);
        apply Hundef; unfold valid_volumes, is_water; simpl; lia.
  - intros (p1 & p2 & p3 & p4 & -> & A1 & A2 & A3 & A4 & -> & -> & _ & _ & -> & _).
    unfold main.
    rewrite (proj2 (check_number_Some p1 _) (conj A1 eq_refl)).
    rewrite (proj2 (check_number_Some p2 _) (conj A2 eq_refl)).
    rewrite (proj2 (check_number_Some p3 _) (conj A3 eq_refl)).
    rewrite (proj2 (check_number_Some p4 _) (conj A4 eq_refl)).
    unfold sort_first_two. case_decide.
    + rewrite Z.min_r, Z.max_l by lia. done.
    + rewrite Z.min_l, Z.max_r by lia. done.
Qed.

(** [main] exits with the usage text exactly when it is not given four
    arguments, and with the message for argument [i] exactly when that is
    the first argument it does not accept. *)
Theorem main_rejects_arguments fuel args :
  (main fuel args = ExitUsage ↔ length args ≠ 4%nat) ∧
  ∀ i, main fuel args = ExitDataErr i ↔
       length args = 4%nat ∧ (1 ≤ i)%nat ∧
       (∃ p, args !! (i - 1)%nat = Some p ∧ ¬ accepted p) ∧
       (∀ j q, (j < i - 1)%nat → args !! j = Some q → accepted q).
Proof.
  destruct args as [|p1 [|p2 [|p3 [|p4 [|p5 rest]]]]];
    try (split; [split; [simpl; lia|done]|];
         intros i; split; [done|]; simpl; intros [? _]; lia).
  unfold main.
  destruct (check_number p1) as [n1|] eqn:H1;
    [apply check_number_Some in H1 as [A1 _]|apply check_number_None in H1];
  [destruct (check_number p2) as [n2|] eqn:H2;
    [apply check_number_Some in H2 as [A2 _]|apply check_number_None in H2];
  [destruct (check_number p3) as [n3|] eqn:H3;
    [apply check_number_Some in H3 as [A3 _]|apply check_number_None in H3];
  [destruct (check_number p4) as [n4|] eqn:H4;
    [apply check_number_Some in H4 as [A4 _]|apply check_number_None in H4]|]|]|].
  all: split; [split; [try done; by destruct (sort_first_two _ _)|simpl; lia]|].
  all: intros i; split.
  all: try (destruct (sort_first_two _ _); done).
  all: try (intros (_ & Hi & (p & Hp & Hrej) & Hacc);
            destruct i as [|[|[|[|[|i]]]]]; simpl in *; try lia; simplify_eq; try done;
            exfalso;
            first [ by apply (Hacc 0%nat p1 ltac:(lia) eq_refl) in H1
                  | by apply H1, (Hacc 0%nat p1); [lia|]
                  | by apply H2, (Hacc 1%nat p2); [lia|]
                  | by apply H3, (Hacc 2%nat p3); [lia|]
                  | by apply H4, (Hacc 3%nat p4); [lia|] ]).
  all: intros [= <-]; split_and!; [done|lia|simpl; eauto|].
  all: intros [|[|[|j]]] q Hj Hq; simpl in *; simplify_eq; try done; lia.
Qed.

(** The order of the first two capacities on the command line does not
    matter. *)
Theorem main_first_two_arguments_commute fuel p1 p2 p3 p4 volumes target o :
  main fuel [p1; p2; p3; p4] = Ran volumes target o →
  main fuel [p2; p1; p3; p4] = Ran volumes target o.
Proof.
  unfold main.
  destruct (check_number p1) as [n1|]; [|done].
  destruct (check_number p2) as [n2|]; [|done].
  destruct (check_number p3) as [n3|]; [|done].
  destruct (check_number p4) as [n4|]; [|done].
  unfold sort_first_two. repeat case_decide; intros [= <- <- <-];
    first [done | lia | (assert (n1 = n2) as -> by lia; done)].
Qed.


Lemma main_first_two_arguments_commute_witness :
  main 6 [Parsed 3 true true; Parsed 5 true true; Parsed 8 true true; Parsed 4 true true]
  = Ran (Vessels 3 5 8) 4 (run 6 (Vessels 3 5 8) 4).
Proof.
  apply (main_first_two_arguments_commute 6
           (Parsed 5 true true) (Parsed 3 true true) (Parsed 8 true true) (Parsed 4 true true)).
  vm_compute. reflexivity.
Defined.

End CommandLineExtra.
